(** * BrainSims: toy brain graphs, cycle search, activation and collapse

    A shallow embedding of [simulateCycles.py], [analysisTools.py] and
    [pcnImplementation.py], followed by the properties of the four
    algorithmic components: the graph generator, the cycle enumerator, the
    activation simulator and the graph collapser with its motif enumerator.

    Python values are modelled as follows.
    - A [networkx.DiGraph] is the list of its nodes in insertion order and
      the list of its edges in insertion order; the successor, predecessor
      and edge views are computed from these two lists in the order
      networkx iterates them.
    - A [dict] is a [gmap]; a subscript on a missing key raises [KeyError].
    - The process-wide random source is a tape of draws that is threaded
      through every call.
    - Python exceptions are the [Raise] branch of [result]. *)

From Stdlib Require Import ZArith Lia.
From stdpp Require Import base numbers option list gmap strings.

(** ** Python exceptions *)

Module Py.

Inductive PyError : Type :=
  | KeyError
  | ValueError
  | IndexError
  | TypeError.

Inductive result (A : Type) : Type :=
  | Ok (a : A)
  | Raise (e : PyError).
Arguments Ok {A} a.
Arguments Raise {A} e.

Definition result_bind {A B : Type} (f : A → result B) (c : result A) : result B :=
  match c with
  | Ok a => f a
  | Raise e => Raise e
  end.

#[global] Instance result_mret : MRet result := @Ok.
#[global] Instance result_mbind : MBind result := @result_bind.

(** [d[k]] on a dict. *)
Definition getitem `{Countable K} {V : Type} (d : gmap K V) (k : K) : result V :=
  match d !! k with
  | Some v => Ok v
  | None => Raise KeyError
  end.

(** [l[i]] on a list; a negative index counts from the end. *)
Definition index {A : Type} (l : list A) (i : Z) : result A :=
  let j := if decide (i < 0)%Z then (i + Z.of_nat (length l))%Z else i in
  if decide (0 ≤ j)%Z then
    match l !! Z.to_nat j with
    | Some x => Ok x
    | None => Raise IndexError
    end
  else Raise IndexError.

(** [range(n)]. *)
Definition range (n : Z) : list Z := seqZ 0 n.

End Py.
Import Py.

(** ** The random source

    [random] is modelled as a tape of natural numbers: each primitive draw
    consumes the head of the tape and reduces it into the requested range
    (an exhausted tape keeps drawing [0]).  Every sequence of outcomes of the
    real generator is the image of some tape. *)

Module Random.

Definition rng : Type := list nat.

Definition randbelow (n : nat) (r : rng) : nat * rng :=
  match r with
  | [] => (0, [])
  | x :: r' => (x mod n, r')
  end.

(** [random.randint(a, b)], for [a <= b]. *)
Definition randint (a b : Z) (r : rng) : Z * rng :=
  let '(j, r') := randbelow (Z.to_nat (b - a + 1)) r in
  ((a + Z.of_nat j)%Z, r').

(** Selection without replacement: a position is drawn among the elements
    still in the pool and the element drawn leaves the pool. *)
Fixpoint draw {A : Type} (k : nat) (pool : list A) (r : rng) : list A * rng :=
  match k with
  | 0 => ([], r)
  | S k' =>
      let '(j, r1) := randbelow (length pool) r in
      match pool !! j with
      | Some x =>
          let '(xs, r2) := draw k' (delete j pool) r1 in
          (x :: xs, r2)
      | None => ([], r1)
      end
  end.

(** [random.sample(population, k)] on a sequence: [ValueError] when the
    sample is larger than the population or negative. *)
Definition sample {A : Type} (population : list A) (k : Z) (r : rng)
  : result (list A * rng) :=
  if decide (0 ≤ k ≤ Z.of_nat (length population))%Z then
    Ok (draw (Z.to_nat k) population r)
  else Raise ValueError.

(** [random.sample(population, k)] on a population that is not a sequence,
    such as a set, a dict or a view of the nodes of a graph: the first thing
    the call does is to raise [TypeError] ("Population must be a sequence"),
    whatever [k] is and before anything is drawn.  (Interpreters older than
    Python 3.11 turned a set into a tuple first.) *)
Definition sample_from_view {A : Type} (population : list A) (k : Z) (r : rng)
  : result (list A * rng) :=
  Raise TypeError.

(** [random.choice(seq)]: [IndexError] on an empty sequence. *)
Definition choice {A : Type} (seq : list A) (r : rng) : result (A * rng) :=
  match seq with
  | [] => Raise IndexError
  | _ =>
      let '(j, r') := randbelow (length seq) r in
      match seq !! j with
      | Some x => Ok (x, r')
      | None => Raise IndexError
      end
  end.

End Random.
Import Random.

(** ** networkx.DiGraph *)

Record DiGraph (K : Type) : Type := mkDiGraph {
  nodes : list K;
  edge_log : list (K * K)
}.
Arguments mkDiGraph {K} _ _.
Arguments nodes {K} _.
Arguments edge_log {K} _.

Section digraph.
Context {K : Type} `{!EqDecision K}.

Definition empty_graph : DiGraph K := mkDiGraph [] [].

Definition has_node (G : DiGraph K) (n : K) : bool := bool_decide (n ∈ nodes G).

Definition has_edge (G : DiGraph K) (u v : K) : bool :=
  bool_decide ((u, v) ∈ edge_log G).

Definition add_node (G : DiGraph K) (n : K) : DiGraph K :=
  if has_node G n then G else mkDiGraph (nodes G ++ [n]) (edge_log G).

Definition add_nodes_from (G : DiGraph K) (ns : list K) : DiGraph K :=
  foldl add_node G ns.

(** [G.add_edge(u, v)] adds the endpoints that are not nodes yet; adding
    an edge that is present leaves the edge set as it is. *)
Definition add_edge (G : DiGraph K) (u v : K) : DiGraph K :=
  let G' := add_node (add_node G u) v in
  if has_edge G' u v then G'
  else mkDiGraph (nodes G') (edge_log G' ++ [(u, v)]).

Definition successors (G : DiGraph K) (n : K) : list K :=
  (filter (λ e, e.1 = n) (edge_log G)).*2.

Definition predecessors (G : DiGraph K) (n : K) : list K :=
  (filter (λ e, e.2 = n) (edge_log G)).*1.

(** [G.edges()]: for each node in node order, its out-edges. *)
Definition edges (G : DiGraph K) : list (K * K) :=
  n ← nodes G; pair n <$> successors G n.

(** What every graph built with [add_node] and [add_edge] satisfies. *)
Definition wf_graph (G : DiGraph K) : Prop :=
  NoDup (nodes G) ∧ NoDup (edge_log G) ∧
  ∀ u v, (u, v) ∈ edge_log G → u ∈ nodes G ∧ v ∈ nodes G.

(** No edge joins a node to itself. *)
Definition loop_free (G : DiGraph K) : Prop :=
  ∀ u v, (u, v) ∈ edges G → u ≠ v.

(** A node sequence whose consecutive nodes are joined by edges. *)
Fixpoint walk (G : DiGraph K) (p : list K) : Prop :=
  match p with
  | u :: (v :: _) as q => (u, v) ∈ edge_log G ∧ walk G q
  | _ => True
  end.
End digraph.

(** ** simulateCycles.py *)

Module SimulateCycles.

(** The inner loop of [build_toy_brain]: one edge per position of the
    sampled list, the last one back to the first. *)
Fixpoint add_cycle_edges (G : DiGraph Z) (cycle_nodes : list Z) (cycle_length : Z)
    (positions : list Z) : result (DiGraph Z) :=
  match positions with
  | [] => Ok G
  | i :: rest =>
      u ← index cycle_nodes i;
      v ← index cycle_nodes ((i + 1) `mod` cycle_length)%Z;
      add_cycle_edges (add_edge G u v) cycle_nodes cycle_length rest
  end.

(** The outer loop of [build_toy_brain], [count] iterations. *)
Fixpoint embed_cycles (n_nodes : Z) (count : nat) (G : DiGraph Z) (r : rng)
  : result (DiGraph Z * rng) :=
  match count with
  | 0 => Ok (G, r)
  | S count' =>
      let '(cycle_length, r1) := randint 3 6 r in
      '(cycle_nodes, r2) ← sample (range n_nodes) cycle_length r1;
      G' ← add_cycle_edges G cycle_nodes cycle_length (range cycle_length);
      embed_cycles n_nodes count' G' r2
  end.

Definition build_toy_brain (n_nodes n_cycles : Z) (r : rng) : result (DiGraph Z * rng) :=
  embed_cycles n_nodes (Z.to_nat n_cycles)
    (add_nodes_from empty_graph (range n_nodes)) r.

Section activation.
Context `{Countable K}.

(** [{node: False for node in G.nodes()}] *)
Definition all_inactive (G : DiGraph K) : gmap K bool :=
  foldl (λ d node, <[node := false]> d) ∅ (nodes G).

(** [for s in start_active: active[s] = True] *)
Definition seed (active : gmap K bool) (start_active : list K) : gmap K bool :=
  foldl (λ d s, <[s := true]> d) active start_active.

(** [sum(active[pr] for pr in prs)], from the running total [acc]. *)
Fixpoint sum_active (active : gmap K bool) (prs : list K) (acc : Z) : result Z :=
  match prs with
  | [] => Ok acc
  | pr :: rest =>
      b ← getitem active pr;
      sum_active active rest (acc + Z.b2z b)%Z
  end.

(** The loop over [G.nodes()] inside one time step; [order] is the order
    in which the nodes are visited. *)
Fixpoint visit_nodes (G : DiGraph K) (activation_threshold : Z)
    (active : gmap K bool) (order : list K) (new_active : gmap K bool)
  : result (gmap K bool) :=
  match order with
  | [] => Ok new_active
  | node :: rest =>
      active_predecessors ← sum_active active (predecessors G node) 0;
      visit_nodes G activation_threshold active rest
        (if decide (activation_threshold ≤ active_predecessors)%Z
         then <[node := true]> new_active else new_active)
  end.

(** One iteration of the loop over [range(steps)]. *)
Definition step (G : DiGraph K) (activation_threshold : Z) (active : gmap K bool)
  : result (gmap K bool) :=
  visit_nodes G activation_threshold active (nodes G) active.

(** The loop over [range(steps)]. *)
Fixpoint run_steps (G : DiGraph K) (activation_threshold : Z) (steps : nat)
    (active : gmap K bool) : result (gmap K bool) :=
  match steps with
  | 0 => Ok active
  | S t =>
      new_active ← step G activation_threshold active;
      run_steps G activation_threshold t new_active
  end.

(** [random.sample] is given [G.nodes()], a view of the nodes that is a set
    and a mapping but not a sequence. *)
Definition activate_cycles (G : DiGraph K) (steps activation_threshold : Z) (r : rng)
  : result (gmap K bool * rng) :=
  let active := all_inactive G in
  '(start_active, r') ←
    sample_from_view (nodes G) (Z.of_nat (length (nodes G)) `div` 4)%Z r;
  let active := seed active start_active in
  final ← run_steps G activation_threshold (Z.to_nat steps) active;
  Ok (final, r').

(** Every node has an entry in the activation state. *)
Definition covers (G : DiGraph K) (active : gmap K bool) : Prop :=
  ∀ n, n ∈ nodes G → is_Some (active !! n).

(** The number of predecessors of [n] that are active in [active]. *)
Definition active_predecessor_count (G : DiGraph K) (active : gmap K bool) (n : K) : Z :=
  Z.of_nat (length (filter (λ pr, active !! pr = Some true) (predecessors G n))).
End activation.

(** [main] of simulateCycles.py.  The first component is what has been
    printed when the run ends: the number of nodes and the number of edges,
    in this order, once the graph is built.  The second is how the run ends:
    with an exception, or with the list of active nodes that the last
    [print] shows.  That list is read off [final_states.items()], whose order
    is the order in which the keys were first inserted, that is, the order of
    [G.nodes()]. *)
Definition main (r : rng) : list Z * result (list Z * rng) :=
  match build_toy_brain 20 4 r with
  | Raise e => ([], Raise e)
  | Ok (G, r1) =>
      let printed := [Z.of_nat (length (nodes G)); Z.of_nat (length (edges G))] in
      match activate_cycles G 5 1 r1 with
      | Raise e => (printed, Raise e)
      | Ok (final_states, r2) =>
          let active_nodes := filter (λ n, final_states !! n = Some true) (nodes G) in
          (printed, Ok (active_nodes, r2))
      end
  end.

End SimulateCycles.
Import SimulateCycles.

(** ** Work lists

    Both enumerators run a [while] loop over a Python list used as a stack
    ([append] and [pop] at the end).  The stack is a Rocq list whose head is
    the top.  The loops are given fuel; [tree_bound b d] counts the nodes of
    a tree of branching [b] and depth [d], which bounds the frames a search
    of that depth can push when no node has more than [b] successors. *)

Fixpoint tree_bound (branch depth : nat) : nat :=
  match depth with
  | 0 => 1
  | S d => 1 + branch * tree_bound branch d
  end.

(** ** analysisTools.py *)

Module AnalysisTools.

Section cycles.
Context {K : Type} `{!EqDecision K}.

(** The [for neighbor in G.successors(current)] loop of one frame. *)
Fixpoint scan_successors (n : K) (max_length : Z) (path : list K) (nbrs : list K)
    (cycles : list (list K)) (dfs_stack : list (K * list K))
  : list (list K) * list (K * list K) :=
  match nbrs with
  | [] => (cycles, dfs_stack)
  | neighbor :: rest =>
      if decide (neighbor = n ∧ (1 < Z.of_nat (length path))%Z
                 ∧ (Z.of_nat (length path) ≤ max_length)%Z)
      then scan_successors n max_length path rest (cycles ++ [path ++ [n]]) dfs_stack
      else if decide ((neighbor ∉ path) ∧ (Z.of_nat (length path) < max_length)%Z)
      then scan_successors n max_length path rest cycles
             ((neighbor, path ++ [neighbor]) :: dfs_stack)
      else scan_successors n max_length path rest cycles dfs_stack
  end.

(** [while dfs_stack: ...]; [None] when the fuel runs out. *)
Fixpoint dfs_loop (fuel : nat) (G : DiGraph K) (n : K) (max_length : Z)
    (dfs_stack : list (K * list K)) (cycles : list (list K))
  : option (list (list K)) :=
  match fuel with
  | 0 => None
  | S fuel' =>
      match dfs_stack with
      | [] => Some cycles
      | (current, path) :: dfs_stack' =>
          let '(cycles', dfs_stack'') :=
            scan_successors n max_length path (successors G current) cycles dfs_stack' in
          dfs_loop fuel' G n max_length dfs_stack'' cycles'
      end
  end.

(** What the frames still on the stack can cost: a frame whose path has
    [l] nodes roots a search tree of depth [max_length - l]. *)
Definition frame_cost (G : DiGraph K) (max_length : Z) (f : K * list K) : nat :=
  tree_bound (length (edge_log G)) (Z.to_nat (max_length - Z.of_nat (length f.2))).

Definition stack_cost (G : DiGraph K) (max_length : Z) (st : list (K * list K)) : nat :=
  sum_list (frame_cost G max_length <$> st).

Definition dfs_fuel (G : DiGraph K) (max_length : Z) : nat :=
  S (tree_bound (length (edge_log G)) (Z.to_nat (max_length - 1))).

(** The loop over the start nodes. *)
Fixpoint search_from (G : DiGraph K) (max_length : Z) (starts : list K)
    (cycles : list (list K)) : option (list (list K)) :=
  match starts with
  | [] => Some cycles
  | n :: rest =>
      cycles' ← dfs_loop (dfs_fuel G max_length) G n max_length [(n, [n])] cycles;
      search_from G max_length rest cycles'
  end.

Definition find_all_cycles (G : DiGraph K) (max_length : Z) : option (list (list K)) :=
  search_from G max_length (nodes G) [].

(** A cycle as the enumerator reports it: a closed walk of [edge_count]
    edges whose nodes, the repeated last one apart, are distinct. *)
Definition edge_count (c : list K) : Z := Z.of_nat (length c) - 1.

Definition interior (c : list K) : list K := take (length c - 1) c.

(** A frame of the search started at [n]: a simple path from [n] to the
    current node. *)
Definition frame_ok (G : DiGraph K) (n : K) (f : K * list K) : Prop :=
  head f.2 = Some n ∧ last f.2 = Some f.1 ∧ NoDup f.2 ∧ walk G f.2.

(** The cycle that closes the simple path [q] from [n] is not lost: it is
    among the cycles found, or a frame of the stack holds a prefix of [q]. *)
Definition pending (n : K) (q : list K) (cycles : list (list K))
    (st : list (K * list K)) : Prop :=
  q ++ [n] ∈ cycles ∨ ∃ f, f ∈ st ∧ f.2 `prefix_of` q ∧ last f.2 = Some f.1.

Definition simple_cycle (G : DiGraph K) (max_length : Z) (c : list K) : Prop :=
  walk G c ∧ is_Some (head c) ∧ head c = last c ∧ NoDup (interior c) ∧
  (2 ≤ edge_count c ≤ max_length)%Z.
End cycles.

Section states.
Context `{Countable K}.

(** [sum(1 for node, val in active_states.items() if val)] *)
Definition count_active_nodes (active_states : gmap K bool) : Z :=
  foldl (λ total item, if item.2 : bool then (total + 1)%Z else total) 0%Z
    (map_to_list active_states).

(** The nodes that are active in a state. *)
Definition active_set (active_states : gmap K bool) : gset K :=
  list_to_set (filter (λ item, item.2 = true) (map_to_list active_states)).*1.

(** [cycle_overlap]: the cycles are compared as tuples, that is, as the
    sequences of their nodes. *)
Definition cycle_overlap (cycles_a cycles_b : list (list K)) : Z :=
  let set_b : gset (list K) := list_to_set cycles_b in
  foldl (λ overlap_count c,
           if decide (c ∈ set_b) then (overlap_count + 1)%Z else overlap_count)
    0%Z cycles_a.

(** How many nodes of the graph are active, counted along the node list. *)
Definition active_nodes (G : DiGraph K) (active : gmap K bool) : list K :=
  filter (λ n, active !! n = Some true) (nodes G).

(** [n] is reached from a node active in [active] by a walk of at most
    [t] edges. *)
Definition reached_within (G : DiGraph K) (active : gmap K bool) (t : nat) (n : K) : Prop :=
  ∃ p a, walk G p ∧ head p = Some a ∧ last p = Some n ∧
         active !! a = Some true ∧ length p ≤ t + 1.
End states.

End AnalysisTools.
Import AnalysisTools.

(** ** pcnImplementation.py *)

Module PcnImplementation.

(** The collapsed graph: a [DiGraph] over cluster identifiers and the
    ['weight'] attribute of its edges. *)
Record WeightedDiGraph (C : Type) `{Countable C} : Type := mkWeighted {
  wg_graph : DiGraph C;
  wg_weight : gmap (C * C) Z
}.
Arguments mkWeighted {C _ _} _ _.
Arguments wg_graph {C _ _} _.
Arguments wg_weight {C _ _} _.

Section collapse.
Context `{Countable K} `{Countable C}.

(** [set(clustering.values())] *)
Definition cluster_nodes (clustering : gmap K C) : gset C :=
  list_to_set (map_to_list clustering).*2.

(** The body of the loop over [G.edges()] for an edge that crosses two
    clusters. *)
Definition bump_edge (Hg : WeightedDiGraph C) (c_u c_v : C) : result (WeightedDiGraph C) :=
  if negb (has_edge (wg_graph Hg) c_u c_v) then
    Ok (mkWeighted (add_edge (wg_graph Hg) c_u c_v) (<[(c_u, c_v) := 1%Z]> (wg_weight Hg)))
  else
    w ← getitem (wg_weight Hg) (c_u, c_v);
    Ok (mkWeighted (wg_graph Hg) (<[(c_u, c_v) := (w + 1)%Z]> (wg_weight Hg))).

Fixpoint collapse_edges (clustering : gmap K C) (es : list (K * K))
    (Hg : WeightedDiGraph C) : result (WeightedDiGraph C) :=
  match es with
  | [] => Ok Hg
  | (u, v) :: rest =>
      c_u ← getitem clustering u;
      c_v ← getitem clustering v;
      if decide (c_u ≠ c_v) then
        Hg' ← bump_edge Hg c_u c_v;
        collapse_edges clustering rest Hg'
      else collapse_edges clustering rest Hg
  end.

Definition collapse_graph (G : DiGraph K) (clustering : gmap K C)
  : result (WeightedDiGraph C) :=
  let Hg := mkWeighted (add_nodes_from empty_graph (elements (cluster_nodes clustering))) ∅ in
  collapse_edges clustering (edges G) Hg.

(** Among the edges [es], those that the clustering sends to the cluster
    pair [(a, b)], and those whose endpoints lie in different clusters. *)
Definition onto (clustering : gmap K C) (a b : C) (es : list (K * K)) : list (K * K) :=
  filter (λ e, clustering !! e.1 = Some a ∧ clustering !! e.2 = Some b) es.

Definition crossing (clustering : gmap K C) (es : list (K * K)) : list (K * K) :=
  filter (λ e, clustering !! e.1 ≠ clustering !! e.2) es.

Definition edges_onto (G : DiGraph K) (clustering : gmap K C) (a b : C) : list (K * K) :=
  onto clustering a b (edges G).

Definition crossing_edges (G : DiGraph K) (clustering : gmap K C) : list (K * K) :=
  crossing clustering (edges G).

Definition sum_weights (m : gmap (C * C) Z) : Z :=
  map_fold (λ _ w acc, (w + acc)%Z) 0%Z m.

Definition total_weight (Hg : WeightedDiGraph C) : Z := sum_weights (wg_weight Hg).

(** The clustering has an entry for every node of [G]. *)
Definition total_clustering (G : DiGraph K) (clustering : gmap K C) : Prop :=
  ∀ n, n ∈ nodes G → is_Some (clustering !! n).

(** The clustering has an entry for both endpoints of the edge. *)
Definition covered (clustering : gmap K C) (e : K * K) : Prop :=
  is_Some (clustering !! e.1) ∧ is_Some (clustering !! e.2).

(** What holds of the collapsed graph once the edges [seen] have been
    processed. *)
Definition collapse_inv (clustering : gmap K C) (seen : list (K * K))
    (Hg : WeightedDiGraph C) : Prop :=
  wf_graph (wg_graph Hg) ∧
  (∀ c, c ∈ nodes (wg_graph Hg) ↔ ∃ n, clustering !! n = Some c) ∧
  (∀ a b, (a, b) ∈ edge_log (wg_graph Hg) ↔ is_Some (wg_weight Hg !! (a, b))) ∧
  (∀ a b, wg_weight Hg !! (a, b) =
          if decide (a ≠ b ∧ onto clustering a b seen ≠ [])
          then Some (Z.of_nat (length (onto clustering a b seen))) else None) ∧
  total_weight Hg = Z.of_nat (length (crossing clustering seen)).
End collapse.

Section clustering.
Context `{Countable K}.

(** The loop of [simple_random_clustering] over the nodes. *)
Fixpoint assign_clusters (cluster_ids : list Z) (ns : list K) (clustering : gmap K Z)
    (r : rng) : result (gmap K Z * rng) :=
  match ns with
  | [] => Ok (clustering, r)
  | node :: rest =>
      '(c, r') ← choice cluster_ids r;
      assign_clusters cluster_ids rest (<[node := c]> clustering) r'
  end.

Definition simple_random_clustering (G : DiGraph K) (k : Z) (r : rng)
  : result (gmap K Z * rng) :=
  assign_clusters (range k) (nodes G) ∅ r.
End clustering.

Section motifs.
Context `{Countable K}.

(** The [for nbr in G.successors(curr)] loop of one frame. *)
Fixpoint record_successors (path : list K) (nbrs : list K)
    (motif_counts : gmap (list K) Z) (queue : list (K * list K))
  : gmap (list K) Z * list (K * list K) :=
  match nbrs with
  | [] => (motif_counts, queue)
  | nbr :: rest =>
      let new_path := path ++ [nbr] in
      if decide (length new_path ≤ 3) then
        record_successors path rest
          (<[new_path := (default 0%Z (motif_counts !! new_path) + 1)%Z]> motif_counts)
          ((nbr, new_path) :: queue)
      else record_successors path rest motif_counts queue
  end.

(** [while queue: ...]; [None] when the fuel runs out. *)
Fixpoint pcn_loop (fuel : nat) (G : DiGraph K) (queue : list (K * list K))
    (motif_counts : gmap (list K) Z) : option (gmap (list K) Z) :=
  match fuel with
  | 0 => None
  | S fuel' =>
      match queue with
      | [] => Some motif_counts
      | (curr, path) :: queue' =>
          if decide (3 < length path) then pcn_loop fuel' G queue' motif_counts
          else
            let '(motif_counts', queue'') :=
              record_successors path (successors G curr) motif_counts queue' in
            pcn_loop fuel' G queue'' motif_counts'
      end
  end.

(** What the frames still in the queue can cost: a frame whose path has
    [l] nodes roots a search tree of depth [3 - l]. *)
Definition queue_cost (G : DiGraph K) (queue : list (K * list K)) : nat :=
  sum_list ((λ f, tree_bound (length (edge_log G)) (3 - length f.2)) <$> queue).

(** A frame of the sweep: a walk that ends at the current node. *)
Definition motif_frame_ok (G : DiGraph K) (f : K * list K) : Prop :=
  last f.2 = Some f.1 ∧ walk G f.2.

(** A recorded motif: a walk of one or two edges. *)
Definition short_walk (G : DiGraph K) (p : list K) : Prop :=
  walk G p ∧ 2 ≤ length p ≤ 3.

Definition keys_short (G : DiGraph K) (m : gmap (list K) Z) : Prop :=
  ∀ p, is_Some (m !! p) → short_walk G p.

(** [p] extends [l] by at least one node. *)
Definition strict_prefix (l p : list K) : Prop := ∃ x r, p = l ++ x :: r.

(** What holds during the sweep, [started] being the start nodes taken so
    far: every count is 1 and its key a short walk from a start node taken;
    the frames are walks of at most 3 nodes no extension of which is
    recorded yet; no frame continues another; and every short walk from a
    start node taken is recorded or continues a frame. *)
Record sweep_inv (G : DiGraph K) (started : list K) (m : gmap (list K) Z)
    (queue : list (K * list K)) : Prop := mkSweepInv {
  inv_keys : ∀ p c, m !! p = Some c →
    c = 1%Z ∧ short_walk G p ∧ ∃ a, head p = Some a ∧ a ∈ started;
  inv_frames : ∀ f, f ∈ queue →
    motif_frame_ok G f ∧ 1 ≤ length f.2 ∧
    (∃ a, head f.2 = Some a ∧ a ∈ started) ∧
    ∀ p, is_Some (m !! p) → ¬ strict_prefix f.2 p;
  inv_nodup : NoDup queue;
  inv_apart : ∀ f g, f ∈ queue → g ∈ queue → f.2 `prefix_of` g.2 → f = g;
  inv_pending : ∀ p a, short_walk G p → head p = Some a → a ∈ started →
    is_Some (m !! p) ∨ ∃ f, f ∈ queue ∧ strict_prefix f.2 p
}.

Definition pcn_fuel (G : DiGraph K) : nat :=
  S (tree_bound (length (edge_log G)) 2).

Fixpoint sweep_from (G : DiGraph K) (starts : list K) (motif_counts : gmap (list K) Z)
  : option (gmap (list K) Z) :=
  match starts with
  | [] => Some motif_counts
  | node :: rest =>
      motif_counts' ← pcn_loop (pcn_fuel G) G [(node, [node])] motif_counts;
      sweep_from G rest motif_counts'
  end.

Definition pcn_analysis (G : DiGraph K) : option (gmap (list K) Z) :=
  sweep_from G (nodes G) ∅.
End motifs.

(** [main] of pcnImplementation.py.  The four [print] calls are the four
    components of the value returned: the numbers of cycles found in the
    original and in the collapsed graph, and the numbers of distinct motifs
    of the two.  The outer [option] is the fuel of the two searches. *)
Definition main (r : rng) : option (result ((Z * Z * Z * Z) * rng)) :=
  match build_toy_brain 12 3 r with
  | Raise e => Some (Raise e)
  | Ok (G, r1) =>
      original_cycles ← find_all_cycles G 5;
      match simple_random_clustering G 3 r1 with
      | Raise e => Some (Raise e)
      | Ok (cluster_dict, r2) =>
          match collapse_graph G cluster_dict with
          | Raise e => Some (Raise e)
          | Ok Hg =>
              collapsed_cycles ← find_all_cycles (wg_graph Hg) 5;
              original_motifs ← pcn_analysis G;
              collapsed_motifs ← pcn_analysis (wg_graph Hg);
              Some (Ok ((Z.of_nat (length original_cycles),
                         Z.of_nat (length collapsed_cycles),
                         Z.of_nat (size original_motifs),
                         Z.of_nat (size collapsed_motifs)), r2))
          end
      end
  end.

End PcnImplementation.
Import PcnImplementation.

(** ** Sample inputs *)

Module Examples.

(** The three-node cycle 0 -> 1 -> 2 -> 0. *)
Definition triangle : DiGraph Z :=
  add_edge (add_edge (add_edge (add_nodes_from empty_graph (range 3)) 0%Z 1%Z) 1%Z 2%Z)
    2%Z 0%Z.

(** The path 0 -> 1 -> 2 -> 3. *)
Definition chain4 : DiGraph Z :=
  add_edge (add_edge (add_edge (add_nodes_from empty_graph (range 4)) 0%Z 1%Z) 1%Z 2%Z)
    2%Z 3%Z.

(** Two nodes and no edge. *)
Definition two_isolated : DiGraph Z := add_nodes_from empty_graph (range 2).

(** Node 0 alone is active. *)
Definition only_zero (G : DiGraph Z) : gmap Z bool := seed (all_inactive G) [0%Z].

(** Every node of the triangle is active. *)
Definition all_active : gmap Z bool := seed (all_inactive triangle) [0%Z; 1%Z; 2%Z].

(** Nodes 0 and 1 in cluster A, node 2 in cluster B. *)
Definition two_clusters : gmap Z string :=
  <[0%Z := "A"]> (<[1%Z := "A"]> (<[2%Z := "B"]> ∅)).

(** A clustering that knows node 0 only. *)
Definition partial_clustering : gmap Z string := <[0%Z := "A"]> ∅.

(** The graph that [build_toy_brain 6 2] returns on the tape [1; 2; ...; 9]. *)
Definition two_embedded_cycles : DiGraph Z :=
  mkDiGraph [0; 1; 2; 3; 4; 5]%Z
    [(2, 4); (4, 0); (0, 5); (5, 2); (1, 4); (4, 2); (2, 0); (0, 3); (3, 1)]%Z.

(** Nodes 0 and 1 of the triangle are active. *)
Definition zero_one_active : gmap Z bool := seed (all_inactive triangle) [0%Z; 1%Z].

(** Node 1 alone, and nodes 1, 2 and 3, of the path are active. *)
Definition only_one : gmap Z bool := seed (all_inactive chain4) [1%Z].
Definition one_to_three : gmap Z bool := seed (all_inactive chain4) [1%Z; 2%Z; 3%Z].

(** The three rotations of the triangle. *)
Definition triangle_cycles : list (list Z) :=
  [[0; 1; 2; 0]; [1; 2; 0; 1]; [2; 0; 1; 2]]%Z.

(** Every node in the cluster A; every node in a cluster of its own. *)
Definition one_cluster : gmap Z string :=
  <[0%Z := "A"]> (<[1%Z := "A"]> (<[2%Z := "A"]> ∅)).
Definition own_clusters : gmap Z Z :=
  <[0%Z := 0%Z]> (<[1%Z := 1%Z]> (<[2%Z := 2%Z]> ∅)).

End Examples.
Import Examples.

(** * Properties *)
(** ** The graph operations *)

Section digraph_facts.
Context {K : Type} `{!EqDecision K}.
Implicit Types (G : DiGraph K) (u v n : K).

Lemma elem_of_successors G u v : v ∈ successors G u ↔ (u, v) ∈ edge_log G.
Proof.
  unfold successors. rewrite list_elem_of_fmap. split.
  - intros [[a b] [-> [Hf ?]%list_elem_of_filter]]. simpl in *. by subst.
  - intros Hin. exists (u, v). split; [done|]. by apply list_elem_of_filter.
Qed.

Lemma elem_of_predecessors G u v : u ∈ predecessors G v ↔ (u, v) ∈ edge_log G.
Proof.
  unfold predecessors. rewrite list_elem_of_fmap. split.
  - intros [[a b] [-> [Hf ?]%list_elem_of_filter]]. simpl in *. by subst.
  - intros Hin. exists (u, v). split; [done|]. by apply list_elem_of_filter.
Qed.

Lemma length_successors G u : length (successors G u) ≤ length (edge_log G).
Proof. unfold successors. rewrite length_fmap. apply length_filter. Qed.

Lemma wf_empty_graph : wf_graph (@empty_graph K).
Proof.
  split_and!; simpl; [apply NoDup_nil_2 | apply NoDup_nil_2 |].
  intros u v Hin. by apply elem_of_nil in Hin.
Qed.

Lemma nodes_add_node G n x : x ∈ nodes (add_node G n) ↔ x ∈ nodes G ∨ x = n.
Proof.
  unfold add_node, has_node. case_bool_decide; simpl.
  - split; [by left|]. intros [?| ->]; done.
  - rewrite elem_of_app, list_elem_of_singleton. done.
Qed.

Lemma edge_log_add_node G n : edge_log (add_node G n) = edge_log G.
Proof. unfold add_node. by destruct (has_node G n). Qed.

Lemma wf_add_node G n : wf_graph G → wf_graph (add_node G n).
Proof.
  intros (Hn & He & Hc). split_and!.
  - unfold add_node, has_node. case_bool_decide; simpl; [done|].
    apply NoDup_app. split_and!; [done| |apply NoDup_singleton].
    intros x ? ->%list_elem_of_singleton. done.
  - by rewrite edge_log_add_node.
  - intros u v. rewrite edge_log_add_node, !nodes_add_node.
    intros [? ?]%Hc. auto.
Qed.

Lemma nodes_add_nodes_from G ns x :
  x ∈ nodes (add_nodes_from G ns) ↔ x ∈ nodes G ∨ x ∈ ns.
Proof.
  unfold add_nodes_from. revert G. induction ns as [|n ns IH]; intros G; simpl.
  - rewrite elem_of_nil. tauto.
  - rewrite IH, nodes_add_node, elem_of_cons. tauto.
Qed.

Lemma edge_log_add_nodes_from G ns : edge_log (add_nodes_from G ns) = edge_log G.
Proof.
  unfold add_nodes_from. revert G. induction ns as [|n ns IH]; intros G; simpl; [done|].
  by rewrite IH, edge_log_add_node.
Qed.

Lemma wf_add_nodes_from G ns : wf_graph G → wf_graph (add_nodes_from G ns).
Proof.
  unfold add_nodes_from. revert G. induction ns as [|n ns IH]; intros G HG; simpl; [done|].
  by apply IH, wf_add_node.
Qed.

Lemma nodes_add_edge G u v x :
  x ∈ nodes (add_edge G u v) ↔ x ∈ nodes G ∨ x = u ∨ x = v.
Proof.
  unfold add_edge. destruct (has_edge _ u v); simpl; rewrite !nodes_add_node; tauto.
Qed.

Lemma edge_log_add_edge G u v e :
  e ∈ edge_log (add_edge G u v) ↔ e ∈ edge_log G ∨ e = (u, v).
Proof.
  unfold add_edge, has_edge. rewrite !edge_log_add_node. case_bool_decide; simpl.
  - rewrite ?edge_log_add_node. split; [by left|]. intros [?| ->]; done.
  - rewrite ?edge_log_add_node, elem_of_app, list_elem_of_singleton. done.
Qed.

Lemma wf_add_edge G u v : wf_graph G → wf_graph (add_edge G u v).
Proof.
  intros HG.
  assert (wf_graph (add_node (add_node G u) v)) as (Hn & He & Hc)
    by by do 2 apply wf_add_node.
  split_and!.
  - unfold add_edge. by destruct (has_edge _ u v).
  - unfold add_edge, has_edge. case_bool_decide; simpl; [done|].
    apply NoDup_app. split_and!; [done| |apply NoDup_singleton].
    intros x ? ->%list_elem_of_singleton. done.
  - intros a b. rewrite edge_log_add_edge, !nodes_add_edge.
    destruct HG as (_ & _ & HcG).
    intros [[? ?]%HcG | [= -> ->]]; auto.
Qed.

Lemma elem_of_edges G e :
  wf_graph G → e ∈ edges G ↔ e ∈ edge_log G.
Proof.
  intros (_ & _ & Hc). unfold edges. rewrite list_elem_of_bind. split.
  - intros (n & [v [-> Hv]]%list_elem_of_fmap & Hn). by apply elem_of_successors.
  - destruct e as [u v]. intros Hin. exists u. split; [|by apply (Hc u v)].
    apply list_elem_of_fmap. exists v. split; [done|]. by apply elem_of_successors.
Qed.
End digraph_facts.
(** ** The random source *)

Section random_facts.
Context {A : Type}.
Implicit Types (pool : list A) (r : rng).

Lemma randbelow_lt (n : nat) r : 0 < n → (randbelow n r).1 < n.
Proof.
  intros Hn. destruct r as [|x r]; simpl; [done|].
  apply Nat.mod_upper_bound. lia.
Qed.

Lemma draw_length (k : nat) pool r : k ≤ length pool → length (draw k pool r).1 = k.
Proof.
  revert pool r. induction k as [|k IH]; intros pool r Hk; [done|].
  cbn [draw]. destruct (randbelow (length pool) r) as [j r1] eqn:Hj.
  assert (j < length pool) as Hlt.
  { pose proof (randbelow_lt (length pool) r) as Hb. rewrite Hj in Hb. apply Hb. lia. }
  destruct (lookup_lt_is_Some_2 pool j Hlt) as [x ->].
  specialize (IH (delete j pool) r1).
  destruct (draw k (delete j pool) r1) as [xs r2]. simpl in *.
  rewrite IH; [done|]. rewrite length_delete by eauto using lookup_lt_is_Some_2. lia.
Qed.

Lemma draw_sublist (k : nat) pool r :
  NoDup pool → NoDup (draw k pool r).1 ∧ (draw k pool r).1 ⊆ pool.
Proof.
  revert pool r. induction k as [|k IH]; intros pool r Hnd.
  { split; [apply NoDup_nil_2|]. intros x Hx. by apply elem_of_nil in Hx. }
  cbn [draw]. destruct (randbelow (length pool) r) as [j r1].
  destruct (pool !! j) as [x|] eqn:Hx; simpl.
  2:{ split; [apply NoDup_nil_2|]. intros y Hy. by apply elem_of_nil in Hy. }
  assert (pool ≡ₚ x :: delete j pool) as Hperm by by apply delete_Permutation.
  assert (NoDup (x :: delete j pool)) as [Hnotin Hnd']%NoDup_cons by by rewrite <- Hperm.
  destruct (IH (delete j pool) r1 Hnd') as [IH1 IH2].
  destruct (draw k (delete j pool) r1) as [xs r2]. simpl in *. split.
  - apply NoDup_cons. split; [|done]. intros Hin. by apply Hnotin, IH2.
  - intros y [->|Hy]%elem_of_cons; rewrite Hperm; [apply list_elem_of_here|].
    by apply list_elem_of_further, IH2.
Qed.

Lemma sample_ok (population : list A) (k : Z) r :
  (0 ≤ k ≤ Z.of_nat (length population))%Z →
  sample population k r = Ok (draw (Z.to_nat k) population r).
Proof. intros Hk. unfold sample. by rewrite decide_True. Qed.

Lemma sample_too_large (population : list A) (k : Z) r :
  (Z.of_nat (length population) < k)%Z → sample population k r = Raise ValueError.
Proof. intros Hk. unfold sample. rewrite decide_False; [done|lia]. Qed.
End random_facts.

Lemma randint_range (a b : Z) (r : rng) : (a ≤ b)%Z → (a ≤ (randint a b r).1 ≤ b)%Z.
Proof.
  intros Hab. unfold randint.
  pose proof (randbelow_lt (Z.to_nat (b - a + 1)) r) as Hlt.
  destruct (randbelow _ r) as [j r']. simpl in *. lia.
Qed.
(** ** The activation simulator *)

Section activation_facts.
Context `{Countable K}.
Implicit Types (G : DiGraph K) (active : gmap K bool) (n : K).

Lemma sum_active_ok active (prs : list K) (acc : Z) :
  (∀ pr, pr ∈ prs → is_Some (active !! pr)) →
  sum_active active prs acc
  = Ok (acc + Z.of_nat (length (filter (λ pr, active !! pr = Some true) prs)))%Z.
Proof.
  revert acc. induction prs as [|pr prs IH]; intros acc Hall; simpl.
  - f_equal. lia.
  - destruct (Hall pr) as [b Hb]; [by left|].
    unfold getitem. rewrite Hb. simpl.
    rewrite IH by (intros; apply Hall; by right).
    rewrite filter_cons. destruct b; simpl; case_decide; try congruence;
      simpl; f_equal; lia.
Qed.

Lemma visit_nodes_ok G (thr : Z) active (order : list K) (acc : gmap K bool) :
  (∀ n pr, n ∈ order → pr ∈ predecessors G n → is_Some (active !! pr)) →
  ∃ new_active,
    visit_nodes G thr active order acc = Ok new_active ∧
    ∀ k, new_active !! k =
         if decide (k ∈ order ∧ (thr ≤ active_predecessor_count G active k)%Z)
         then Some true else acc !! k.
Proof.
  revert acc. induction order as [|node rest IH]; intros acc Hall; cbn [visit_nodes].
  - exists acc. split; [done|]. intros k. case_decide as Hk; [|done].
    destruct Hk as [Hk _]. by apply elem_of_nil in Hk.
  - rewrite sum_active_ok
      by (intros pr Hpr; apply (Hall node pr); [apply list_elem_of_here|done]).
    cbn [mbind result_mbind result_bind]. rewrite Z.add_0_l.
    fold (active_predecessor_count G active node).
    destruct (IH (if decide (thr ≤ active_predecessor_count G active node)%Z
                  then <[node:=true]> acc else acc)) as (new & -> & Hnew).
    { intros n pr ? ?. eapply Hall; [by right|done]. }
    exists new. split; [done|]. intros k. rewrite Hnew. clear Hnew IH.
    set (P := λ x, (thr ≤ active_predecessor_count G active x)%Z).
    change (thr ≤ active_predecessor_count G active node)%Z with (P node).
    change (thr ≤ active_predecessor_count G active k)%Z with (P k).
    destruct (decide (k ∈ rest ∧ P k)) as [[Hk HP]|Hno].
    { rewrite decide_True; [done|]. split; [by apply list_elem_of_further|done]. }
    destruct (decide (k = node)) as [->|Hne].
    + destruct (decide (P node)) as [HP|HP].
      * rewrite lookup_insert_eq, decide_True; [done|].
        split; [apply list_elem_of_here|done].
      * rewrite decide_False; [done|]. by intros [_ ?].
    + assert ((if decide (P node) then <[node:=true]> acc else acc) !! k = acc !! k)
        as -> by (destruct (decide (P node)); [by rewrite lookup_insert_ne|done]).
      rewrite decide_False; [done|].
      intros [[?|?]%elem_of_cons ?]; [done|]. by apply Hno.
Qed.

Lemma covers_predecessors G active :
  wf_graph G → covers G active →
  ∀ n pr, pr ∈ predecessors G n → is_Some (active !! pr).
Proof.
  intros (_ & _ & Hc) Hcov n pr Hpr%elem_of_predecessors.
  apply Hcov. by apply (Hc pr n).
Qed.

Lemma step_ok G (thr : Z) active :
  wf_graph G → covers G active →
  ∃ new_active,
    step G thr active = Ok new_active ∧ covers G new_active ∧
    ∀ k, new_active !! k =
         if decide (k ∈ nodes G ∧ (thr ≤ active_predecessor_count G active k)%Z)
         then Some true else active !! k.
Proof.
  intros HG Hcov.
  destruct (visit_nodes_ok G thr active (nodes G) active) as (new & Hrun & Hnew);
    [intros n pr _; by apply covers_predecessors|].
  exists new. split_and!; [done| |done].
  intros n Hn. rewrite Hnew. case_decide; [by eexists|by apply Hcov].
Qed.

Lemma visit_nodes_keeps_active G (thr : Z) active (order : list K)
    (acc new_active : gmap K bool) n :
  visit_nodes G thr active order acc = Ok new_active →
  acc !! n = Some true → new_active !! n = Some true.
Proof.
  revert acc. induction order as [|node rest IH]; intros acc; cbn [visit_nodes].
  - by intros [= ->].
  - destruct (sum_active active (predecessors G node) 0) as [c|e];
      cbn [mbind result_mbind result_bind]; [|done].
    intros Hrun Hacc. eapply IH; [done|].
    case_decide; [|done].
    destruct (decide (n = node)) as [->|]; [by rewrite lookup_insert_eq|].
    by rewrite lookup_insert_ne.
Qed.

Lemma step_keeps_active G (thr : Z) active new_active n :
  step G thr active = Ok new_active →
  active !! n = Some true → new_active !! n = Some true.
Proof. apply visit_nodes_keeps_active. Qed.

Lemma run_steps_app G (thr : Z) (a b : nat) active :
  run_steps G thr (a + b) active = run_steps G thr a active ≫= run_steps G thr b.
Proof.
  revert active. induction a as [|a IH]; intros active; simpl; [done|].
  destruct (step G thr active) as [new|e]; simpl; [apply IH|done].
Qed.

Lemma run_steps_iter G (thr : Z) (steps : nat) active :
  run_steps G thr steps active
  = Nat.iter steps (λ c, c ≫= step G thr) (Ok active).
Proof.
  induction steps as [|t IH]; [done|].
  replace (S t) with (t + 1) at 1 by lia.
  rewrite run_steps_app, IH, Nat.iter_succ.
  destruct (Nat.iter t _ _) as [s|e]; [|done].
  cbn [mbind result_mbind result_bind run_steps].
  by destruct (step G thr s).
Qed.

Lemma run_steps_ok G (thr : Z) (steps : nat) active :
  wf_graph G → covers G active →
  ∃ final, run_steps G thr steps active = Ok final ∧ covers G final.
Proof.
  intros HG. revert active. induction steps as [|t IH]; intros active Hcov; simpl.
  - by exists active.
  - destruct (step_ok G thr active) as (new & -> & Hcov' & _); [done..|]. simpl.
    by apply IH.
Qed.

Lemma run_steps_keeps_active G (thr : Z) (steps : nat) active final n :
  run_steps G thr steps active = Ok final →
  active !! n = Some true → final !! n = Some true.
Proof.
  revert active. induction steps as [|t IH]; intros active; simpl.
  - by intros [= ->].
  - destruct (step G thr active) as [new|e] eqn:Hs; simpl; [|done].
    intros Hrun Hact. eapply IH; [done|]. by eapply step_keeps_active.
Qed.
End activation_facts.
(** ** Claims on the activation simulator *)

Section activation_claims.
Context `{Countable K}.
Implicit Types (G : DiGraph K) (active : gmap K bool) (n : K).

Lemma lookup_foldl_insert (b : bool) (l : list K) (m : gmap K bool) (k : K) :
  foldl (λ d x, <[x:=b]> d) m l !! k = if decide (k ∈ l) then Some b else m !! k.
Proof.
  revert m. induction l as [|x l IH]; intros m; cbn [foldl].
  - rewrite decide_False; [done|]. by intros ?%elem_of_nil.
  - rewrite IH. destruct (decide (k ∈ l)) as [Hin|Hnot].
    + rewrite decide_True; [done|]. by apply list_elem_of_further.
    + destruct (decide (k = x)) as [->|Hne].
      * rewrite lookup_insert_eq, decide_True; [done|]. apply list_elem_of_here.
      * rewrite lookup_insert_ne by done. rewrite decide_False; [done|].
        by intros [?|?]%elem_of_cons.
Qed.

Lemma seed_all_inactive_lookup G (start_active : list K) (k : K) :
  seed (all_inactive G) start_active !! k
  = if decide (k ∈ start_active) then Some true
    else if decide (k ∈ nodes G) then Some false else None.
Proof.
  unfold seed, all_inactive. rewrite !lookup_foldl_insert.
  repeat case_decide; done.
Qed.

Lemma covers_seed G (start_active : list K) : covers G (seed (all_inactive G) start_active).
Proof.
  intros n Hn. rewrite seed_all_inactive_lookup.
  case_decide; [by eexists|]. rewrite decide_True by done. by eexists.
Qed.

(** C1: each step of the activation simulator is computed from the state
    at the start of the step.  In whatever order the nodes are visited the
    step returns the same state, in which a node is active exactly when it
    was active before or at least [thr] of its predecessors were.  The loop
    over [range(steps)] is exactly [steps] applications of this step to the
    state it is entered with, and from a state with an entry for every node
    it returns after them: there is no early exit.  This is the loop of
    [activate_cycles]; the call that draws the initial sample precedes it and
    is no part of the statement. *)
Theorem activate_cycles_synchronous G (thr : Z) :
  wf_graph G →
  (∀ active (order : list K), covers G active → order ≡ₚ nodes G →
     ∃ new_active,
       visit_nodes G thr active order active = Ok new_active ∧
       step G thr active = Ok new_active ∧
       covers G new_active ∧
       ∀ n, n ∈ nodes G →
            new_active !! n = Some true ↔
            active !! n = Some true ∨ (thr ≤ active_predecessor_count G active n)%Z) ∧
  (∀ active (steps : Z),
     run_steps G thr (Z.to_nat steps) active
     = Nat.iter (Z.to_nat steps) (λ c, c ≫= step G thr) (Ok active)) ∧
  (∀ active (steps : Z), covers G active →
     ∃ final, run_steps G thr (Z.to_nat steps) active = Ok final ∧ covers G final).
Proof.
  intros HG. split_and!.
  - intros active order Hcov Hperm.
    destruct (step_ok G thr active HG Hcov) as (new & Hstep & Hcov' & Hnew).
    destruct (visit_nodes_ok G thr active order active) as (new' & Hrun & Hnew').
    { intros n pr _. by apply covers_predecessors. }
    assert (new' = new) as ->.
    { apply map_eq. intros k. rewrite Hnew, Hnew'.
      apply decide_ext. by rewrite Hperm. }
    exists new. split_and!; [done..|].
    intros n Hn. rewrite Hnew. case_decide as Hd.
    + split; [|done]. intros _. right. by destruct Hd.
    + split; [by left|]. intros [?|?]; [done|]. destruct Hd. by split.
  - intros active steps. apply run_steps_iter.
  - intros active steps Hcov. by apply run_steps_ok.
Qed.

(** C5: an active node stays active.  From a state that has an entry for
    every node, the states after [t] and after [t' > t] steps both exist,
    and every node active in the first is active in the second. *)
Theorem activation_monotone G (thr : Z) active (t t' : nat) :
  wf_graph G → covers G active → t < t' →
  ∃ s s', run_steps G thr t active = Ok s ∧ run_steps G thr t' active = Ok s' ∧
          ∀ n, s !! n = Some true → s' !! n = Some true.
Proof.
  intros HG Hcov Hlt.
  destruct (run_steps_ok G thr t active HG Hcov) as (s & Hs & Hcovs).
  destruct (run_steps_ok G thr (t' - t) s HG Hcovs) as (s' & Hs' & _).
  exists s, s'. split_and!; [done| |].
  - replace t' with (t + (t' - t)) by lia. by rewrite run_steps_app, Hs.
  - intros n. by apply (run_steps_keeps_active G thr (t' - t)).
Qed.

(** C6: once a step changes nothing, no later step does.  If the states
    after [t] and after [t + 1] steps are the same state [s], the state
    after [t + k] steps is [s] for every [k > 0]. *)
Theorem activation_fixed_point G (thr : Z) active (t : nat) (s : gmap K bool) :
  run_steps G thr t active = Ok s →
  run_steps G thr (t + 1) active = Ok s →
  ∀ k, 0 < k → run_steps G thr (t + k) active = Ok s.
Proof.
  intros Ht Ht1 k _. rewrite run_steps_app, Ht in *.
  cbn [mbind result_mbind result_bind run_steps] in *.
  assert (step G thr s = Ok s) as Hfix by (by destruct (step G thr s)).
  clear Ht Ht1. induction k as [|k IH]; [done|].
  cbn [run_steps]. by rewrite Hfix.
Qed.

Lemma activate_cycles_type_error G (steps thr : Z) (r : rng) :
  activate_cycles G steps thr r = Raise TypeError.
Proof. reflexivity. Qed.

(** C8, as the code has it: nothing in the simulator looks at the sign of
    the threshold.  The step loop, entered with a state that has an entry for
    exactly the nodes of the graph, raises nothing for any step count and any
    threshold, negative ones included, and returns a state over the same
    nodes; the state of the empty graph stays empty; and a threshold that is
    not positive activates every node in the first step. *)
Theorem threshold_never_checked G (steps thr : Z) active :
  wf_graph G → covers G active → (∀ n, is_Some (active !! n) → n ∈ nodes G) →
  ∃ final : gmap K bool,
    run_steps G thr (Z.to_nat steps) active = Ok final ∧
    (∀ n, is_Some (final !! n) ↔ n ∈ nodes G) ∧
    (nodes G = [] → final = ∅) ∧
    ((thr ≤ 0)%Z → (0 < steps)%Z → ∀ n, n ∈ nodes G → final !! n = Some true).
Proof.
  intros HG Hcov Hdom.
  assert (∀ t a, covers G a → (∀ n, is_Some (a !! n) → n ∈ nodes G) →
            ∃ f, run_steps G thr t a = Ok f ∧ covers G f ∧
                 (∀ n, is_Some (f !! n) → n ∈ nodes G) ∧
                 ((thr ≤ 0)%Z → 0 < t → ∀ n, n ∈ nodes G → f !! n = Some true))
    as Hrun.
  { induction t as [|t IH]; intros a Ha Hd; cbn [run_steps].
    - exists a. split_and!; [done..|]. lia.
    - destruct (step_ok G thr a HG Ha) as (new & -> & Hcn & Hnew).
      cbn [mbind result_mbind result_bind].
      destruct (IH new Hcn) as (f & Hf & Hcf & Hdf & _).
      { intros n. rewrite Hnew. case_decide as Hd'; [by destruct Hd'|apply Hd]. }
      exists f. split_and!; [done..|].
      intros Hthr _ n Hn. apply (run_steps_keeps_active G thr t new); [done|].
      rewrite Hnew, decide_True; [done|]. split; [done|].
      unfold active_predecessor_count. lia. }
  destruct (Hrun (Z.to_nat steps) active Hcov Hdom) as (final & Hfin & Hcf & Hdf & Hneg).
  exists final. split_and!; [done| | |].
  - intros n. split; [apply Hdf|apply Hcf].
  - intros Hnil. apply map_empty. intros n.
    apply eq_None_not_Some. intros Hn%Hdf. rewrite Hnil in Hn.
    by apply elem_of_nil in Hn.
  - intros Hthr Hsteps. apply Hneg; [done|lia].
Qed.
End activation_claims.
(** ** Claims on the graph generator *)

Section generator_facts.
Implicit Types (G : DiGraph Z) (r : rng).

Lemma index_ok {A : Type} (l : list A) (i : Z) :
  (0 ≤ i < Z.of_nat (length l))%Z →
  ∃ x, index l i = Ok x ∧ l !! Z.to_nat i = Some x.
Proof.
  intros Hi. unfold index. cbv zeta.
  rewrite (decide_False (P := (i < 0)%Z)) by lia.
  rewrite (decide_True (P := (0 ≤ i)%Z)) by lia.
  destruct (lookup_lt_is_Some_2 l (Z.to_nat i)) as [x Hx]; [lia|].
  exists x. by rewrite Hx.
Qed.

Lemma next_position_ne (i L : Z) : (2 ≤ L)%Z → (0 ≤ i < L)%Z → ((i + 1) `mod` L)%Z ≠ i.
Proof.
  intros HL Hi. destruct (decide (i + 1 < L)%Z).
  - rewrite Z.mod_small; lia.
  - replace (i + 1)%Z with L by lia. rewrite Z.mod_same; lia.
Qed.

Lemma add_cycle_edges_ok G (cycle_nodes : list Z) (L : Z) (positions : list Z) :
  Z.of_nat (length cycle_nodes) = L → (1 ≤ L)%Z →
  (∀ i, i ∈ positions → (0 ≤ i < L)%Z) →
  ∃ G', add_cycle_edges G cycle_nodes L positions = Ok G' ∧
        (wf_graph G → wf_graph G') ∧
        (∀ x, x ∈ nodes G → x ∈ nodes G') ∧
        (∀ x, x ∈ nodes G' → x ∈ nodes G ∨ x ∈ cycle_nodes) ∧
        ((2 ≤ L)%Z → NoDup cycle_nodes →
         (∀ u v, (u, v) ∈ edge_log G → u ≠ v) → ∀ u v, (u, v) ∈ edge_log G' → u ≠ v).
Proof.
  intros Hlen HL. revert G. induction positions as [|i rest IH]; intros G Hpos;
    cbn [add_cycle_edges].
  - exists G. split_and!; auto.
  - assert (0 ≤ i < L)%Z as Hi by (apply Hpos, list_elem_of_here).
    assert (0 ≤ (i + 1) `mod` L < L)%Z as Hi' by (apply Z.mod_pos_bound; lia).
    destruct (index_ok cycle_nodes i) as (u & -> & Hu); [lia|].
    destruct (index_ok cycle_nodes ((i + 1) `mod` L)) as (v & -> & Hv); [lia|].
    cbn [mbind result_mbind result_bind].
    destruct (IH (add_edge G u v)) as (G' & -> & Hwf & Hnodes & Hback & Hloop).
    { intros j Hj. by apply Hpos, list_elem_of_further. }
    exists G'. split_and!; [done| | | |].
    + intros HG. by apply Hwf, wf_add_edge.
    + intros x Hx. apply Hnodes, nodes_add_edge. by left.
    + intros x [Hx|Hx]%Hback; [|by right].
      apply nodes_add_edge in Hx as [?|[-> | ->]]; [by left|right..];
        by eapply list_elem_of_lookup_2.
    + intros HL2 Hnd Hfree. apply Hloop; [done..|].
      intros a b [Hab | [= -> ->]]%edge_log_add_edge; [by apply Hfree|].
      intros ->. pose proof (NoDup_lookup _ _ _ _ Hnd Hu Hv) as Heq.
      apply (next_position_ne i L); [done..|]. lia.
Qed.

Lemma range_length (n : Z) : Z.of_nat (length (range n)) = Z.max 0 n.
Proof. unfold range. rewrite length_seqZ. lia. Qed.

Lemma embed_cycles_small (n_nodes : Z) (count : nat) G r :
  (n_nodes < 3)%Z → 0 < count →
  embed_cycles n_nodes count G r = Raise ValueError.
Proof.
  intros Hn Hc. destruct count as [|c]; [lia|]. cbn [embed_cycles].
  pose proof (randint_range 3 6 r) as Hr.
  destruct (randint 3 6 r) as [L r1]. simpl in Hr.
  rewrite sample_too_large; [done|]. rewrite range_length. lia.
Qed.

Lemma embed_cycles_inv (n_nodes : Z) (count : nat) G r G' r' :
  embed_cycles n_nodes count G r = Ok (G', r') →
  wf_graph G → (∀ u v, (u, v) ∈ edge_log G → u ≠ v) →
  wf_graph G' ∧ (∀ u v, (u, v) ∈ edge_log G' → u ≠ v) ∧
  (∀ x, x ∈ nodes G → x ∈ nodes G') ∧
  (∀ x, x ∈ nodes G' → x ∈ nodes G ∨ x ∈ range n_nodes).
Proof.
  revert G r. induction count as [|c IH]; intros G r; cbn [embed_cycles].
  - intros [= -> ->] ? ?. split_and!; auto.
  - pose proof (randint_range 3 6 r) as Hr.
    destruct (randint 3 6 r) as [L r1]. simpl in Hr.
    unfold sample. case_decide as Hk; [|done].
    cbn [mbind result_mbind result_bind].
    pose proof (draw_length (Z.to_nat L) (range n_nodes) r1) as Hlen.
    pose proof (draw_sublist (Z.to_nat L) (range n_nodes) r1) as [Hnd Hsub];
      [apply NoDup_seqZ|].
    destruct (draw (Z.to_nat L) (range n_nodes) r1) as [cn r2]. simpl in *.
    destruct (add_cycle_edges_ok G cn L (range L))
      as (G1 & -> & Hwf & Hnodes & Hback & Hloop).
    { rewrite Hlen; lia. }
    { lia. }
    { intros i Hi%elem_of_seqZ. lia. }
    cbn [mbind result_mbind result_bind].
    intros Hrun HG Hfree.
    destruct (IH G1 r2 Hrun) as (? & ? & Hn' & Hb'); [by apply Hwf| |].
    + apply Hloop; [lia|done..].
    + split_and!; [done..| |].
      * intros x Hx. by apply Hn', Hnodes.
      * intros x [[?|?]%Hback|?]%Hb'; [by left|right|by right]. by apply Hsub.
Qed.

Lemma embed_cycles_large (n_nodes : Z) (count : nat) G r :
  (6 ≤ n_nodes)%Z →
  ∃ G' r', embed_cycles n_nodes count G r = Ok (G', r').
Proof.
  intros Hn. revert G r. induction count as [|c IH]; intros G r; cbn [embed_cycles].
  - by exists G, r.
  - pose proof (randint_range 3 6 r) as Hr.
    destruct (randint 3 6 r) as [L r1]. simpl in Hr.
    rewrite sample_ok by (rewrite range_length; lia).
    pose proof (draw_length (Z.to_nat L) (range n_nodes) r1) as Hlen.
    destruct (draw (Z.to_nat L) (range n_nodes) r1) as [cn r2]. simpl in *.
    cbn [mbind result_mbind result_bind].
    destruct (add_cycle_edges_ok G cn L (range L)) as (G1 & -> & _).
    { rewrite Hlen; [lia|]. pose proof (range_length n_nodes). lia. }
    { lia. }
    { intros i Hi%elem_of_seqZ. lia. }
    cbn [mbind result_mbind result_bind]. apply IH.
Qed.

Lemma wf_initial_nodes (n_nodes : Z) :
  wf_graph (add_nodes_from empty_graph (range n_nodes)).
Proof. apply wf_add_nodes_from, wf_empty_graph. Qed.

(** One iteration of the embedding loop: it raises exactly when the length
    it draws exceeds the number of nodes, and otherwise adds the edges of the
    sampled cycle and goes on with the remaining iterations. *)
Lemma embed_cycles_step (n_nodes : Z) (count : nat) G r :
  let cycle_length := (randint 3 6 r).1 in
  let drawn := draw (Z.to_nat cycle_length) (range n_nodes) (randint 3 6 r).2 in
  (3 ≤ cycle_length ≤ 6)%Z ∧
  ((n_nodes < cycle_length)%Z →
   embed_cycles n_nodes (S count) G r = Raise ValueError) ∧
  ((cycle_length ≤ n_nodes)%Z →
   ∃ G1, add_cycle_edges G drawn.1 cycle_length (range cycle_length) = Ok G1 ∧
         embed_cycles n_nodes (S count) G r = embed_cycles n_nodes count G1 drawn.2).
Proof.
  cbv zeta. cbn [embed_cycles].
  pose proof (randint_range 3 6 r) as Hr.
  destruct (randint 3 6 r) as [L r1]. cbn [fst snd] in *.
  split; [lia|]. split.
  - intros Hn. rewrite sample_too_large; [done|]. rewrite range_length. lia.
  - intros Hn. rewrite sample_ok by (rewrite range_length; lia).
    pose proof (draw_length (Z.to_nat L) (range n_nodes) r1) as Hlen.
    destruct (draw (Z.to_nat L) (range n_nodes) r1) as [cn r2]. cbn [fst snd] in *.
    cbn [mbind result_mbind result_bind].
    destruct (add_cycle_edges_ok G cn L (range L)) as (G1 & HG1 & _).
    { rewrite Hlen; [lia|]. pose proof (range_length n_nodes). lia. }
    { lia. }
    { intros i Hi%elem_of_seqZ. lia. }
    exists G1. split; [done|]. by rewrite HG1.
Qed.

Lemma embed_cycles_raises (n_nodes : Z) (count : nat) G r (e : PyError) :
  embed_cycles n_nodes count G r = Raise e → e = ValueError.
Proof.
  revert G r. induction count as [|c IH]; intros G r; [done|].
  destruct (embed_cycles_step n_nodes c G r) as (_ & Hsmall & Hfit).
  destruct (decide (n_nodes < (randint 3 6 r).1)%Z) as [Hn|Hn].
  - rewrite Hsmall by done. congruence.
  - destruct Hfit as (G1 & _ & ->); [lia|]. apply IH.
Qed.

Lemma draw_empty_tape {A : Type} (k : nat) (pool : list A) : (draw k pool []).2 = [].
Proof.
  revert pool. induction k as [|k IH]; intros pool; [done|].
  cbn [draw randbelow]. destruct (pool !! 0) as [x|]; [|done].
  specialize (IH (delete 0 pool)).
  by destruct (draw k (delete 0 pool) []) as [xs r2].
Qed.

(** A source that always answers 0 makes every iteration draw the length 3. *)
Lemma embed_cycles_empty_tape (n_nodes : Z) (count : nat) G :
  (3 ≤ n_nodes)%Z → ∃ G', embed_cycles n_nodes count G [] = Ok (G', []).
Proof.
  intros Hn. revert G. induction count as [|c IH]; intros G.
  { by exists G. }
  destruct (embed_cycles_step n_nodes c G []) as (_ & _ & Hfit).
  change (randint 3 6 []) with (3%Z, @nil nat) in Hfit. cbn [fst snd] in Hfit.
  destruct Hfit as (G1 & _ & ->); [done|].
  rewrite draw_empty_tape. apply IH.
Qed.

(** A source whose first answer is 3 makes the first iteration draw the
    length 6. *)
Lemma embed_cycles_long_draw (n_nodes : Z) (count : nat) G :
  (n_nodes < 6)%Z → 0 < count → embed_cycles n_nodes count G [3] = Raise ValueError.
Proof.
  intros Hn Hc. destruct count as [|c]; [lia|].
  destruct (embed_cycles_step n_nodes c G [3]) as (_ & Hsmall & _).
  change (randint 3 6 [3]) with (6%Z, @nil nat) in Hsmall. by apply Hsmall.
Qed.
End generator_facts.

(** C7, as the code has it: the generator validates nothing itself and has
    one way to fail, the [ValueError] of the sampler.  An embedding iteration
    draws a length between 3 and 6; it raises [ValueError] when that length
    exceeds the number of nodes, and otherwise adds the sampled cycle and
    goes on with the remaining iterations.  Hence: with fewer than 3 nodes
    and at least one cycle to embed generation always fails; with at least 6
    nodes it always succeeds, after [n_cycles] iterations, with a well-formed
    graph over the nodes [0 .. n_nodes - 1]; with no cycle to embed it
    returns the isolated nodes without drawing anything; a failure is always
    a [ValueError], with fewer than 6 nodes and at least one cycle to embed;
    and between these bounds both outcomes occur: with at least 3 nodes
    generation succeeds when every draw is the smallest one, and with fewer
    than 6 nodes and a cycle to embed it fails when the first length drawn
    is 6. *)
Theorem build_toy_brain_failure_modes (n_nodes n_cycles : Z) (r : rng) :
  ((n_nodes < 3)%Z → (0 < n_cycles)%Z →
   build_toy_brain n_nodes n_cycles r = Raise ValueError) ∧
  ((6 ≤ n_nodes)%Z →
   ∃ G r', build_toy_brain n_nodes n_cycles r = Ok (G, r') ∧ wf_graph G ∧
           ∀ x, x ∈ nodes G ↔ (0 ≤ x < n_nodes)%Z) ∧
  ((n_cycles ≤ 0)%Z →
   build_toy_brain n_nodes n_cycles r
   = Ok (add_nodes_from empty_graph (range n_nodes), r)) ∧
  (∀ e, build_toy_brain n_nodes n_cycles r = Raise e →
        e = ValueError ∧ (n_nodes < 6)%Z ∧ (0 < n_cycles)%Z) ∧
  (∀ (count : nat) (G : DiGraph Z) (r0 : rng),
     let cycle_length := (randint 3 6 r0).1 in
     let drawn := draw (Z.to_nat cycle_length) (range n_nodes) (randint 3 6 r0).2 in
     (3 ≤ cycle_length ≤ 6)%Z ∧
     ((n_nodes < cycle_length)%Z →
      embed_cycles n_nodes (S count) G r0 = Raise ValueError) ∧
     ((cycle_length ≤ n_nodes)%Z →
      ∃ G1, add_cycle_edges G drawn.1 cycle_length (range cycle_length) = Ok G1 ∧
            embed_cycles n_nodes (S count) G r0
            = embed_cycles n_nodes count G1 drawn.2)) ∧
  ((3 ≤ n_nodes)%Z → ∃ G, build_toy_brain n_nodes n_cycles [] = Ok (G, [])) ∧
  ((n_nodes < 6)%Z → (0 < n_cycles)%Z →
   build_toy_brain n_nodes n_cycles [3] = Raise ValueError).
Proof.
  assert ((6 ≤ n_nodes)%Z →
          ∃ G r', build_toy_brain n_nodes n_cycles r = Ok (G, r') ∧ wf_graph G ∧
                  ∀ x, x ∈ nodes G ↔ (0 ≤ x < n_nodes)%Z) as Hlarge.
  { unfold build_toy_brain. intros Hn.
    destruct (embed_cycles_large n_nodes (Z.to_nat n_cycles)
                (add_nodes_from empty_graph (range n_nodes)) r Hn) as (G & r' & Hrun).
    exists G, r'. split; [done|].
    destruct (embed_cycles_inv _ _ _ _ _ _ Hrun) as (HG & _ & Hin & Hback).
    { apply wf_initial_nodes. }
    { intros u v. rewrite edge_log_add_nodes_from. simpl. by intros ?%elem_of_nil. }
    split; [done|]. intros x.
    assert (x ∈ range n_nodes ↔ (0 ≤ x < n_nodes)%Z) as <-
      by (unfold range; rewrite elem_of_seqZ; lia).
    split.
    + intros [Hx|Hx]%Hback; [|done].
      apply nodes_add_nodes_from in Hx as [Hx|Hx]; [|done]. by apply elem_of_nil in Hx.
    + intros Hx. apply Hin, nodes_add_nodes_from. by right. }
  assert ((n_cycles ≤ 0)%Z →
          build_toy_brain n_nodes n_cycles r
          = Ok (add_nodes_from empty_graph (range n_nodes), r)) as Hnone.
  { unfold build_toy_brain. intros Hc. by replace (Z.to_nat n_cycles) with 0 by lia. }
  split_and!; [|done|done| | | |].
  - unfold build_toy_brain. intros Hn Hc. apply embed_cycles_small; lia.
  - intros e He. split_and!.
    + unfold build_toy_brain in He. by eapply embed_cycles_raises.
    + destruct (decide (n_nodes < 6)%Z) as [|Hn]; [done|].
      destruct Hlarge as (G & r' & Hrun & _); [lia|]. congruence.
    + destruct (decide (0 < n_cycles)%Z) as [|Hc]; [done|].
      rewrite Hnone in He by lia. done.
  - intros count G r0. apply embed_cycles_step.
  - unfold build_toy_brain. intros Hn. by apply embed_cycles_empty_tape.
  - unfold build_toy_brain. intros Hn Hc. apply embed_cycles_long_draw; lia.
Qed.

(** C10: a generated graph has no self-loop.  Whatever the node count, the
    cycle count and the state of the random source, when [build_toy_brain]
    returns a graph, that graph is well formed and each of its edges joins
    two different nodes. *)
Theorem build_toy_brain_loop_free (n_nodes n_cycles : Z) (r r' : rng) (G : DiGraph Z) :
  build_toy_brain n_nodes n_cycles r = Ok (G, r') →
  wf_graph G ∧ loop_free G.
Proof.
  unfold build_toy_brain. intros Hrun.
  destruct (embed_cycles_inv _ _ _ _ _ _ Hrun) as (HG & Hfree & _ & _).
  - apply wf_initial_nodes.
  - intros u v. rewrite edge_log_add_nodes_from. simpl. by intros ?%elem_of_nil.
  - split; [done|]. intros u v Huv%elem_of_edges; [|done]. by apply Hfree.
Qed.
(** ** Claims on the cycle enumerator *)

Lemma tree_bound_pos (b d : nat) : 1 ≤ tree_bound b d.
Proof. destruct d; simpl; lia. Qed.

Section cycle_facts.
Context {K : Type} `{!EqDecision K}.
Implicit Types (G : DiGraph K) (n : K) (path : list K) (st : list (K * list K)).

Lemma walk_snoc G path (c x : K) :
  walk G path → last path = Some c → (c, x) ∈ edge_log G → walk G (path ++ [x]).
Proof.
  induction path as [|u [|v q] IH]; intros Hw Hl He; [done| |].
  - simpl in *. injection Hl as ->. done.
  - destruct Hw as [Huv Hw]. split; [done|]. by apply IH.
Qed.

Lemma interior_snoc path (x : K) : interior (path ++ [x]) = path.
Proof.
  unfold interior. rewrite length_app. simpl.
  replace (length path + 1 - 1) with (length path) by lia.
  by rewrite take_app_length.
Qed.

Lemma head_snoc path (x y : K) : head path = Some y → head (path ++ [x]) = Some y.
Proof. by destruct path. Qed.

Lemma closing_edge_cycle G n (max_length : Z) (current : K) path :
  frame_ok G n (current, path) → (current, n) ∈ edge_log G →
  (1 < Z.of_nat (length path))%Z → (Z.of_nat (length path) ≤ max_length)%Z →
  simple_cycle G max_length (path ++ [n]).
Proof.
  intros (Hh & Hl & Hnd & Hw) He H1 H2. simpl in *. unfold simple_cycle. split_and!.
  - by eapply walk_snoc.
  - rewrite (head_snoc _ _ n Hh). by eexists.
  - by rewrite (head_snoc _ _ n Hh), last_snoc.
  - by rewrite interior_snoc.
  - unfold edge_count. rewrite length_app. simpl. lia.
  - unfold edge_count. rewrite length_app. simpl. lia.
Qed.

Lemma extend_frame_ok G n (current neighbor : K) path :
  frame_ok G n (current, path) → (current, neighbor) ∈ edge_log G →
  neighbor ∉ path → frame_ok G n (neighbor, path ++ [neighbor]).
Proof.
  intros (Hh & Hl & Hnd & Hw) He Hnot. simpl in *. split_and!; simpl.
  - by apply head_snoc.
  - by rewrite last_snoc.
  - apply NoDup_app. split_and!; [done| |apply NoDup_singleton].
    intros x Hx ->%list_elem_of_singleton. done.
  - by eapply walk_snoc.
Qed.

Lemma scan_successors_sound G n (max_length : Z) (current : K) path
    (nbrs : list K) (cycles : list (list K)) st :
  frame_ok G n (current, path) →
  (∀ x, x ∈ nbrs → (current, x) ∈ edge_log G) →
  Forall (simple_cycle G max_length) cycles → Forall (frame_ok G n) st →
  Forall (simple_cycle G max_length) (scan_successors n max_length path nbrs cycles st).1 ∧
  Forall (frame_ok G n) (scan_successors n max_length path nbrs cycles st).2.
Proof.
  intros Hf. revert cycles st.
  induction nbrs as [|x nbrs IH]; intros cycles st Hn Hc Hs; cbn [scan_successors].
  { done. }
  assert ((current, x) ∈ edge_log G) as Hx by apply Hn, list_elem_of_here.
  assert (∀ y, y ∈ nbrs → (current, y) ∈ edge_log G) as Hn'
    by (intros y Hy; by apply Hn, list_elem_of_further).
  repeat case_decide.
  - apply IH; [done| |done]. apply Forall_app. split; [done|].
    apply Forall_singleton. destruct_and!. subst x. by eapply closing_edge_cycle.
  - apply IH; [done..|]. apply Forall_cons. split; [|done].
    destruct_and!. by eapply extend_frame_ok.
  - by apply IH.
Qed.

Lemma dfs_loop_sound (fuel : nat) G n (max_length : Z) st (cycles found : list (list K)) :
  dfs_loop fuel G n max_length st cycles = Some found →
  Forall (frame_ok G n) st → Forall (simple_cycle G max_length) cycles →
  Forall (simple_cycle G max_length) found.
Proof.
  revert st cycles. induction fuel as [|fuel IH]; intros st cycles; cbn [dfs_loop]; [done|].
  destruct st as [|[current path] st]; [by intros [= ->]|].
  intros Hrun [Hf Hs]%Forall_cons Hc.
  destruct (scan_successors_sound G n max_length current path (successors G current)
              cycles st) as [Hc' Hs']; [done| |done..|].
  { intros x. by rewrite elem_of_successors. }
  destruct (scan_successors _ _ _ _ _ _) as [cycles' st'].
  by eapply IH.
Qed.

(** The search runs out of work before it runs out of fuel. *)
Lemma scan_successors_cost G n (max_length : Z) path (nbrs : list K)
    (cycles : list (list K)) st :
  stack_cost G max_length (scan_successors n max_length path nbrs cycles st).2
  ≤ stack_cost G max_length st
    + (if decide (Z.of_nat (length path) < max_length)%Z
       then length nbrs * tree_bound (length (edge_log G))
                            (Z.to_nat (max_length - Z.of_nat (length path) - 1))
       else 0).
Proof.
  revert cycles st. induction nbrs as [|x nbrs IH]; intros cycles st;
    cbn [scan_successors].
  { simpl. lia. }
  destruct (decide (x = n ∧ _)) as [_|_]; [etrans; [apply IH|]; case_decide; simpl; lia|].
  destruct (decide ((x ∉ path) ∧ _)) as [[_ Hlt]|Hno].
  - etrans; [apply IH|]. rewrite !decide_True by done.
    unfold stack_cost at 1. rewrite fmap_cons. cbn [sum_list].
    fold (stack_cost G max_length st). unfold frame_cost. simpl.
    rewrite length_app. simpl.
    replace (max_length - Z.of_nat (length path + 1))%Z
      with (max_length - Z.of_nat (length path) - 1)%Z by lia.
    simpl. lia.
  - etrans; [apply IH|]. case_decide; simpl; lia.
Qed.

Lemma dfs_loop_terminates (fuel : nat) G n (max_length : Z) st (cycles : list (list K)) :
  stack_cost G max_length st < fuel →
  is_Some (dfs_loop fuel G n max_length st cycles).
Proof.
  revert st cycles. induction fuel as [|fuel IH]; intros st cycles Hlt; [lia|].
  cbn [dfs_loop]. destruct st as [|[current path] st]; [by eexists|].
  pose proof (scan_successors_cost G n max_length path (successors G current) cycles st)
    as Hcost.
  destruct (scan_successors _ _ _ _ _ _) as [cycles' st']. simpl in Hcost.
  apply IH. unfold stack_cost in Hlt. rewrite fmap_cons in Hlt. cbn [sum_list] in Hlt.
  fold (stack_cost G max_length st) in Hlt. unfold frame_cost in Hlt at 1. simpl in Hlt.
  pose proof (length_successors G current) as Hdeg.
  case_decide as Hd.
  - replace (Z.to_nat (max_length - Z.of_nat (length path)))
      with (S (Z.to_nat (max_length - Z.of_nat (length path) - 1))) in Hlt by lia.
    cbn [tree_bound] in Hlt. nia.
  - pose proof (tree_bound_pos (length (edge_log G))
                  (Z.to_nat (max_length - Z.of_nat (length path)))). lia.
Qed.

Lemma search_from_sound G (max_length : Z) (starts : list K) (cycles : list (list K)) :
  Forall (simple_cycle G max_length) cycles →
  ∃ found, search_from G max_length starts cycles = Some found ∧
           Forall (simple_cycle G max_length) found.
Proof.
  revert cycles. induction starts as [|n starts IH]; intros cycles Hc; cbn [search_from].
  { by exists cycles. }
  destruct (dfs_loop_terminates (dfs_fuel G max_length) G n max_length [(n, [n])] cycles)
    as [found Hfound].
  { unfold dfs_fuel, stack_cost, frame_cost. simpl.
    change (Z.of_nat 1) with 1%Z. lia. }
  rewrite Hfound. simpl. apply IH.
  eapply dfs_loop_sound; [done| |done].
  apply Forall_singleton. split_and!; simpl; [done..|apply NoDup_singleton|done].
Qed.

(** C2: the enumerator returns, and each cycle it returns is a closed
    walk of the graph that starts and ends at the same node, whose nodes
    before the last are pairwise distinct, and that has between 2 and
    [max_length] edges. *)
Theorem find_all_cycles_simple G (max_length : Z) :
  ∃ cycles, find_all_cycles G max_length = Some cycles ∧
    ∀ c, c ∈ cycles →
      walk G c ∧ is_Some (head c) ∧ head c = last c ∧ NoDup (interior c) ∧
      (2 ≤ edge_count c ≤ max_length)%Z.
Proof.
  destruct (search_from_sound G max_length (nodes G) []) as (found & Hrun & Hall);
    [apply Forall_nil_2|].
  exists found. split; [done|]. intros c Hc.
  by apply (proj1 (Forall_forall _ _) Hall).
Qed.
End cycle_facts.
(** ** Claims on the graph collapser *)

Section collapse_facts.
Context `{Countable K} `{Countable C}.
Implicit Types (G : DiGraph K) (cl : gmap K C) (Hg : WeightedDiGraph C)
  (seen es : list (K * K)) (a b : C) (u v : K).

Lemma sum_weights_insert_new (m : gmap (C * C) Z) (k : C * C) (w : Z) :
  m !! k = None → sum_weights (<[k:=w]> m) = (w + sum_weights m)%Z.
Proof.
  intros Hk. unfold sum_weights. rewrite map_fold_insert_L; [done| |done].
  intros. lia.
Qed.

Lemma sum_weights_bump (m : gmap (C * C) Z) (k : C * C) (w : Z) :
  m !! k = Some w → sum_weights (<[k:=(w + 1)%Z]> m) = (1 + sum_weights m)%Z.
Proof.
  intros Hk. rewrite <- insert_delete_eq.
  rewrite sum_weights_insert_new by apply lookup_delete_eq.
  unfold sum_weights at 2. rewrite (map_fold_delete_L _ _ k w m); [|intros; lia|done].
  fold (sum_weights (delete k m)). lia.
Qed.

Lemma onto_snoc cl a b seen u v (a' b' : C) :
  cl !! u = Some a → cl !! v = Some b →
  onto cl a' b' (seen ++ [(u, v)])
  = onto cl a' b' seen ++ (if decide (a' = a ∧ b' = b) then [(u, v)] else []).
Proof.
  intros Hu Hv. unfold onto. rewrite filter_app. f_equal.
  rewrite filter_cons, filter_nil. simpl. rewrite Hu, Hv.
  destruct (decide (a' = a ∧ b' = b)) as [[-> ->]|Hne].
  - by rewrite decide_True.
  - rewrite decide_False; [done|]. intros [[= ->] [= ->]]. by apply Hne.
Qed.

Lemma crossing_snoc cl a b seen u v :
  cl !! u = Some a → cl !! v = Some b →
  crossing cl (seen ++ [(u, v)])
  = crossing cl seen ++ (if decide (a ≠ b) then [(u, v)] else []).
Proof.
  intros Hu Hv. unfold crossing. rewrite filter_app. f_equal.
  rewrite filter_cons, filter_nil. simpl. rewrite Hu, Hv.
  destruct (decide (a ≠ b)) as [Hne|Heq].
  - rewrite decide_True; [done|]. intros [= ->]. done.
  - rewrite decide_False; [done|]. intros Hne. apply Heq. intros ->. done.
Qed.

Lemma collapse_inv_same_cluster cl seen Hg u v a :
  cl !! u = Some a → cl !! v = Some a →
  collapse_inv cl seen Hg → collapse_inv cl (seen ++ [(u, v)]) Hg.
Proof.
  intros Hu Hv (Hwf & Hn & He & Hw & Ht). split_and!; [done..| |].
  - intros a' b'. rewrite Hw, (onto_snoc cl a a) by done.
    destruct (decide (a' = a ∧ b' = a)) as [[-> ->]|Hne].
    + rewrite !decide_False; [done|by intros [? _]..].
    + by rewrite app_nil_r.
  - rewrite Ht, (crossing_snoc cl a a) by done.
    rewrite decide_False by (by intros ?). by rewrite app_nil_r.
Qed.

Lemma bump_edge_inv cl seen Hg u v a b :
  cl !! u = Some a → cl !! v = Some b → a ≠ b →
  collapse_inv cl seen Hg →
  ∃ Hg', bump_edge Hg a b = Ok Hg' ∧ collapse_inv cl (seen ++ [(u, v)]) Hg'.
Proof.
  intros Hu Hv Hab (Hwf & Hn & He & Hw & Ht). unfold bump_edge, has_edge.
  assert (∀ a' b', (a', b') ≠ (a, b) →
            onto cl a' b' (seen ++ [(u, v)]) = onto cl a' b' seen) as Hother.
  { intros a' b' Hne. rewrite (onto_snoc cl a b) by done.
    rewrite decide_False; [by rewrite app_nil_r|]. intros [-> ->]. done. }
  assert (onto cl a b (seen ++ [(u, v)]) = onto cl a b seen ++ [(u, v)]) as Hthis.
  { rewrite (onto_snoc cl a b) by done. by rewrite decide_True. }
  assert (crossing cl (seen ++ [(u, v)]) = crossing cl seen ++ [(u, v)]) as Hcross.
  { rewrite (crossing_snoc cl a b) by done. by rewrite decide_True. }
  case_bool_decide as Hin; cbn [negb].
  - (* the edge is there: its weight goes up by one *)
    apply He in Hin as [w Hwab]. unfold getitem. rewrite Hwab.
    cbn [mbind result_mbind result_bind].
    eexists. split; [done|]. split_and!; cbn [wg_graph wg_weight]; [done..| | |].
    + intros a' b'. rewrite He. destruct (decide ((a', b') = (a, b))) as [[= -> ->]|Hne].
      * rewrite lookup_insert_eq, Hwab. split; by eexists.
      * by rewrite lookup_insert_ne.
    + intros a' b'. destruct (decide ((a', b') = (a, b))) as [[= -> ->]|Hne].
      * rewrite lookup_insert_eq, Hthis.
        rewrite decide_True by (split; [done|by intros ?%app_nil; destruct_and!]).
        rewrite Hw in Hwab. case_decide; [|done]. injection Hwab as <-.
        rewrite length_app. simpl. f_equal. lia.
      * rewrite lookup_insert_ne by done. by rewrite Hw, Hother.
    + unfold total_weight in *. cbn [wg_weight].
      rewrite (sum_weights_bump _ _ w Hwab), Ht, Hcross, length_app. simpl. lia.
  - (* a new edge, of weight one *)
    assert (wg_weight Hg !! (a, b) = None) as Hnone.
    { apply eq_None_not_Some. by rewrite <- He. }
    eexists. split; [done|]. split_and!; cbn [wg_graph wg_weight].
    + by apply wf_add_edge.
    + intros c. rewrite nodes_add_edge, Hn. split; [|by left].
      intros [?|[-> | ->]]; eauto.
    + intros a' b'. rewrite edge_log_add_edge, He.
      destruct (decide ((a', b') = (a, b))) as [[= -> ->]|Hne].
      * rewrite lookup_insert_eq. split; [by eexists|by right].
      * rewrite lookup_insert_ne by done. split; [by intros [?|?]|by left].
    + intros a' b'. destruct (decide ((a', b') = (a, b))) as [[= -> ->]|Hne].
      * rewrite lookup_insert_eq, Hthis.
        rewrite decide_True by (split; [done|by intros ?%app_nil; destruct_and!]).
        rewrite Hw in Hnone. case_decide as Hd; [done|].
        assert (onto cl a b seen = []) as ->.
        { destruct (onto cl a b seen) eqn:Heq; [done|]. destruct Hd. by split. }
        done.
      * rewrite lookup_insert_ne by done. by rewrite Hw, Hother.
    + unfold total_weight in *. cbn [wg_weight].
      rewrite (sum_weights_insert_new _ _ _ Hnone), Ht, Hcross, length_app. simpl. lia.
Qed.

Lemma collapse_edges_spec cl es seen Hg :
  collapse_inv cl seen Hg →
  (Forall (covered cl) es →
   ∃ Hg', collapse_edges cl es Hg = Ok Hg' ∧ collapse_inv cl (seen ++ es) Hg') ∧
  (¬ Forall (covered cl) es → collapse_edges cl es Hg = Raise KeyError).
Proof.
  revert seen Hg. induction es as [|[u v] es IH]; intros seen Hg Hinv.
  { split.
    - intros _. exists Hg. by rewrite app_nil_r.
    - intros Hno. destruct Hno. apply Forall_nil_2. }
  cbn [collapse_edges]. unfold getitem.
  destruct (cl !! u) as [a|] eqn:Hu.
  2:{ cbn [mbind result_mbind result_bind]. split; [|done].
      intros [[[? ?] _] _]%Forall_cons. simpl in *. congruence. }
  destruct (cl !! v) as [b|] eqn:Hv.
  2:{ cbn [mbind result_mbind result_bind]. split; [|done].
      intros [[_ [? ?]] _]%Forall_cons. simpl in *. congruence. }
  cbn [mbind result_mbind result_bind].
  assert (covered cl (u, v)) as Hcov by (split; simpl; by eexists).
  replace (seen ++ (u, v) :: es) with ((seen ++ [(u, v)]) ++ es)
    by (by rewrite <- app_assoc).
  destruct (decide (a ≠ b)) as [Hab|Hab].
  - destruct (bump_edge_inv cl seen Hg u v a b Hu Hv Hab Hinv) as (Hg' & -> & Hinv').
    cbn [mbind result_mbind result_bind].
    destruct (IH _ _ Hinv') as [IHok IHerr]. split.
    + intros [_ ?]%Forall_cons. by apply IHok.
    + intros Hno. apply IHerr. intros ?. apply Hno. by apply Forall_cons.
  - assert (a = b) as <- by (by destruct (decide (a = b)); [|destruct Hab]).
    destruct (IH _ _ (collapse_inv_same_cluster cl seen Hg u v a Hu Hv Hinv))
      as [IHok IHerr]. split.
    + intros [_ ?]%Forall_cons. by apply IHok.
    + intros Hno. apply IHerr. intros ?. apply Hno. by apply Forall_cons.
Qed.

Lemma elem_of_cluster_nodes cl (c : C) : c ∈ cluster_nodes cl ↔ ∃ n, cl !! n = Some c.
Proof.
  unfold cluster_nodes. rewrite elem_of_list_to_set, list_elem_of_fmap. split.
  - intros [[n c'] [-> Hin%elem_of_map_to_list]]. by exists n.
  - intros [n Hn]. exists (n, c). split; [done|]. by apply elem_of_map_to_list.
Qed.

Lemma collapse_inv_initial cl :
  collapse_inv cl []
    (mkWeighted (add_nodes_from empty_graph (elements (cluster_nodes cl))) ∅).
Proof.
  split_and!; cbn [wg_graph wg_weight].
  - apply wf_add_nodes_from, wf_empty_graph.
  - intros c. rewrite nodes_add_nodes_from, elem_of_elements, elem_of_cluster_nodes.
    simpl. rewrite elem_of_nil. tauto.
  - intros a b. rewrite edge_log_add_nodes_from, lookup_empty. simpl.
    rewrite elem_of_nil. split; [done|]. by intros [? ?].
  - intros a b. rewrite lookup_empty. rewrite decide_False; [done|]. by intros [_ ?].
  - unfold total_weight, sum_weights. cbn [wg_weight]. by rewrite map_fold_empty.
Qed.

Lemma total_clustering_covered G cl :
  wf_graph G → total_clustering G cl → Forall (covered cl) (edges G).
Proof.
  intros HG Htot. apply Forall_forall. intros [u v] Huv%elem_of_edges; [|done].
  destruct HG as (_ & _ & Hc). destruct (Hc u v Huv). split; by apply Htot.
Qed.

(** C3: for a clustering that is total over the nodes of [G], the
    collapsed graph has exactly the cluster identifiers in the value set of
    the clustering as nodes; the weight of the edge between two different
    clusters [a] and [b] is the number of edges of [G] from a node of [a]
    to a node of [b], and the edge is absent when there is none; no edge
    joins a cluster to itself; and the weights add up to the number of
    edges of [G] whose endpoints lie in different clusters. *)
Theorem collapse_graph_weights G cl :
  wf_graph G → total_clustering G cl →
  ∃ Hg, collapse_graph G cl = Ok Hg ∧
    (∀ c, c ∈ nodes (wg_graph Hg) ↔ ∃ n, cl !! n = Some c) ∧
    (∀ a b, wg_weight Hg !! (a, b) =
            if decide (a ≠ b ∧ edges_onto G cl a b ≠ [])
            then Some (Z.of_nat (length (edges_onto G cl a b))) else None) ∧
    (∀ a b, (a, b) ∈ edges (wg_graph Hg) ↔ is_Some (wg_weight Hg !! (a, b))) ∧
    (∀ a, (a, a) ∉ edges (wg_graph Hg)) ∧
    total_weight Hg = Z.of_nat (length (crossing_edges G cl)).
Proof.
  intros HG Htot. unfold collapse_graph.
  destruct (collapse_edges_spec cl (edges G) [] _ (collapse_inv_initial cl)) as [Hok _].
  destruct (Hok (total_clustering_covered G cl HG Htot))
    as (Hg & Hrun & Hwf & Hn & He & Hw & Ht).
  exists Hg. split_and!; [done..| | |done].
  - intros a b. by rewrite elem_of_edges, He.
  - intros a. rewrite elem_of_edges, He, Hw by done.
    rewrite decide_False; [by intros [? ?]|]. by intros [? _].
Qed.

(** C9, as the code has it: the collapser looks up the clustering at the
    endpoints of the edges only.  It returns a graph exactly when the
    clustering has an entry for both endpoints of every edge, which a total
    clustering has, and raises [KeyError] otherwise; a node without edges
    may be missing from the clustering. *)
Theorem collapse_graph_key_errors G cl :
  (Forall (covered cl) (edges G) ↔ ∃ Hg, collapse_graph G cl = Ok Hg) ∧
  (¬ Forall (covered cl) (edges G) ↔ collapse_graph G cl = Raise KeyError) ∧
  (wf_graph G → total_clustering G cl → ∃ Hg, collapse_graph G cl = Ok Hg).
Proof.
  unfold collapse_graph.
  destruct (collapse_edges_spec cl (edges G) [] _ (collapse_inv_initial cl))
    as [Hok Herr].
  destruct (decide (Forall (covered cl) (edges G))) as [Hall|Hno].
  - destruct (Hok Hall) as (Hg & Hrun & _). split_and!.
    + split; [by exists Hg|done].
    + split; [done|]. rewrite Hrun. done.
    + by exists Hg.
  - specialize (Herr Hno). split_and!.
    + split; [done|]. rewrite Herr. by intros [? ?].
    + done.
    + intros HG Htot. destruct Hno. by apply total_clustering_covered.
Qed.
End collapse_facts.
(** ** Claims on the motif enumerator *)

Section motif_facts.
Context `{Countable K}.
Implicit Types (G : DiGraph K) (path : list K) (queue : list (K * list K))
  (m : gmap (list K) Z).

Lemma record_successors_sound G (curr : K) path (nbrs : list K) m queue :
  motif_frame_ok G (curr, path) → path ≠ [] →
  (∀ x, x ∈ nbrs → (curr, x) ∈ edge_log G) →
  keys_short G m → Forall (motif_frame_ok G) queue →
  keys_short G (record_successors path nbrs m queue).1 ∧
  Forall (motif_frame_ok G) (record_successors path nbrs m queue).2.
Proof.
  intros [Hl Hw] Hne. simpl in *. revert m queue.
  induction nbrs as [|x nbrs IH]; intros m queue Hn Hm Hq; cbn [record_successors].
  { done. }
  assert (walk G (path ++ [x])) as Hwx.
  { eapply walk_snoc; [done..|]. apply Hn, list_elem_of_here. }
  assert (∀ y, y ∈ nbrs → (curr, y) ∈ edge_log G) as Hn'
    by (intros y Hy; by apply Hn, list_elem_of_further).
  cbv zeta. case_decide as Hlen; [|by apply IH].
  apply IH; [done| |].
  - intros p. destruct (decide (p = path ++ [x])) as [->|Hp].
    + intros _. split; [done|]. rewrite length_app in *. simpl in *.
      destruct path; [done|]. simpl in *. lia.
    + rewrite lookup_insert_ne by done. apply Hm.
  - apply Forall_cons. split; [|done]. split; simpl; [by rewrite last_snoc|done].
Qed.

Lemma record_successors_cost G path (nbrs : list K) m queue :
  queue_cost G (record_successors path nbrs m queue).2
  ≤ queue_cost G queue
    + (if decide (length path + 1 ≤ 3)
       then length nbrs * tree_bound (length (edge_log G)) (3 - (length path + 1))
       else 0).
Proof.
  revert m queue. induction nbrs as [|x nbrs IH]; intros m queue;
    cbn [record_successors].
  { simpl. lia. }
  cbv zeta. rewrite length_app. simpl.
  destruct (decide (length path + 1 ≤ 3)) as [Hle|Hgt].
  - etrans; [apply IH|].
    unfold queue_cost at 1. rewrite fmap_cons. cbn [sum_list].
    fold (queue_cost G queue). simpl. rewrite length_app. simpl. lia.
  - etrans; [apply IH|]. lia.
Qed.

Lemma pcn_loop_spec (fuel : nat) G queue m :
  queue_cost G queue < fuel →
  Forall (motif_frame_ok G) queue → Forall (λ f, f.2 ≠ []) queue → keys_short G m →
  ∃ m', pcn_loop fuel G queue m = Some m' ∧ keys_short G m'.
Proof.
  revert queue m. induction fuel as [|fuel IH]; intros queue m Hlt Hq Hne Hm; [lia|].
  cbn [pcn_loop]. destruct queue as [|[curr path] queue]; [by exists m|].
  apply Forall_cons in Hq as [Hf Hq]. apply Forall_cons in Hne as [Hp Hne].
  unfold queue_cost in Hlt. rewrite fmap_cons in Hlt. cbn [sum_list] in Hlt.
  fold (queue_cost G queue) in Hlt. simpl in Hlt, Hp.
  pose proof (tree_bound_pos (length (edge_log G)) (3 - length path)) as Hpos.
  case_decide as Hlong.
  { apply IH; [lia|done..]. }
  pose proof (record_successors_cost G path (successors G curr) m queue) as Hcost.
  destruct (record_successors_sound G curr path (successors G curr) m queue)
    as [Hm' Hq']; [done..| |done|done|].
  { intros x. by rewrite elem_of_successors. }
  assert (Forall (λ f, f.2 ≠ []) (record_successors path (successors G curr) m queue).2)
    as Hne'.
  { clear -Hne. revert m queue Hne.
    induction (successors G curr) as [|x nbrs IHn]; intros m queue Hne;
      cbn [record_successors]; [done|].
    cbv zeta. case_decide; [|by apply IHn].
    apply IHn, Forall_cons. split; [|done]. simpl. by destruct path. }
  destruct (record_successors _ _ _ _) as [m' queue']. simpl in *.
  apply IH; [|done..].
  pose proof (length_successors G curr) as Hdeg.
  case_decide as Hd.
  - replace (3 - length path) with (S (3 - (length path + 1))) in Hlt by lia.
    cbn [tree_bound] in Hlt. nia.
  - lia.
Qed.

Lemma sweep_from_spec G (starts : list K) m :
  keys_short G m →
  ∃ m', sweep_from G starts m = Some m' ∧ keys_short G m'.
Proof.
  revert m. induction starts as [|node starts IH]; intros m Hm; cbn [sweep_from].
  { by exists m. }
  destruct (pcn_loop_spec (pcn_fuel G) G [(node, [node])] m) as (m' & -> & Hm').
  - unfold pcn_fuel, queue_cost. simpl. lia.
  - apply Forall_singleton. by split.
  - by apply Forall_singleton.
  - done.
  - simpl. by apply IH.
Qed.

(** The sweep returns, and it records walks of one or two edges only. *)
Lemma pcn_analysis_short G :
  ∃ m, pcn_analysis G = Some m ∧ ∀ p, is_Some (m !! p) → short_walk G p.
Proof.
  apply sweep_from_spec. intros p. rewrite lookup_empty. by intros [? ?].
Qed.
End motif_facts.
(** ** The claims on sample inputs *)

Lemma wf_triangle : wf_graph triangle.
Proof. do 3 apply wf_add_edge. apply wf_add_nodes_from, wf_empty_graph. Qed.

Lemma wf_chain4 : wf_graph chain4.
Proof. do 3 apply wf_add_edge. apply wf_add_nodes_from, wf_empty_graph. Qed.

Lemma wf_two_isolated : wf_graph two_isolated.
Proof. apply wf_add_nodes_from, wf_empty_graph. Qed.

Lemma two_clusters_total : total_clustering triangle two_clusters.
Proof.
  intros n Hn. change (nodes triangle) with [0; 1; 2]%Z in Hn.
  repeat (apply elem_of_cons in Hn as [->|Hn]; [by eexists|]).
  by apply elem_of_nil in Hn.
Qed.

Lemma activate_cycles_synchronous_witness :
  (∀ active (order : list Z), covers triangle active → order ≡ₚ nodes triangle →
     ∃ new_active,
       visit_nodes triangle 1 active order active = Ok new_active ∧
       step triangle 1 active = Ok new_active ∧
       covers triangle new_active ∧
       ∀ n, n ∈ nodes triangle →
            new_active !! n = Some true ↔
            active !! n = Some true ∨ (1 ≤ active_predecessor_count triangle active n)%Z) ∧
  (∀ active (steps : Z),
     run_steps triangle 1 (Z.to_nat steps) active
     = Nat.iter (Z.to_nat steps) (λ c, c ≫= step triangle 1) (Ok active)) ∧
  (∀ active (steps : Z), covers triangle active →
     ∃ final, run_steps triangle 1 (Z.to_nat steps) active = Ok final ∧
              covers triangle final).
Proof. exact (activate_cycles_synchronous triangle 1 wf_triangle). Defined.

Lemma activation_monotone_witness :
  ∃ s s', run_steps triangle 1 1 (only_zero triangle) = Ok s ∧
          run_steps triangle 1 2 (only_zero triangle) = Ok s' ∧
          ∀ n, s !! n = Some true → s' !! n = Some true.
Proof.
  apply (activation_monotone triangle 1 (only_zero triangle) 1 2).
  - apply wf_triangle.
  - apply covers_seed.
  - lia.
Defined.

Lemma activation_fixed_point_witness :
  run_steps triangle 1 (2 + 3) (only_zero triangle) = Ok all_active.
Proof.
  apply (activation_fixed_point triangle 1 (only_zero triangle) 2 all_active).
  - vm_compute. reflexivity.
  - vm_compute. reflexivity.
  - lia.
Defined.

Lemma only_zero_nodes (n : Z) :
  is_Some (only_zero triangle !! n) → n ∈ nodes triangle.
Proof.
  unfold only_zero. rewrite seed_all_inactive_lookup.
  case_decide as Hzero; [|case_decide; [done|by intros [? ?]]].
  intros _. apply list_elem_of_singleton in Hzero as ->. apply list_elem_of_here.
Qed.

Lemma threshold_never_checked_witness :
  ∃ final : gmap Z bool,
    run_steps triangle (-1) (Z.to_nat 2) (only_zero triangle) = Ok final ∧
    (∀ n, is_Some (final !! n) ↔ n ∈ nodes triangle) ∧
    (nodes triangle = [] → final = ∅) ∧
    ((-1 ≤ 0)%Z → (0 < 2)%Z → ∀ n, n ∈ nodes triangle → final !! n = Some true).
Proof.
  apply (threshold_never_checked triangle 2 (-1) (only_zero triangle)).
  - apply wf_triangle.
  - apply covers_seed.
  - apply only_zero_nodes.
Defined.

(** C8 as stated fails twice over.  With the threshold 1 the simulator does
    not succeed: the call that draws the initial sample raises [TypeError].
    With the threshold -1 it raises that same [TypeError], by the same call
    and not on account of the threshold; and the step loop, entered with the
    state in which node 0 is active, takes the threshold -1 and returns the
    state in which every node is active. *)
Lemma threshold_not_validated :
  activate_cycles triangle 2 1 [] = Raise TypeError ∧
  activate_cycles triangle 2 (-1) [] = Raise TypeError ∧
  run_steps triangle (-1) 2 (only_zero triangle) = Ok all_active.
Proof. split_and!; [reflexivity..|]. vm_compute. reflexivity. Qed.

Lemma build_toy_brain_failure_modes_witness :
  build_toy_brain 2 1 [0] = Raise ValueError ∧
  (∃ G r', build_toy_brain 6 2 [1; 2; 3; 4; 5; 6; 7; 8; 9] = Ok (G, r') ∧ wf_graph G ∧
           ∀ x, x ∈ nodes G ↔ (0 ≤ x < 6)%Z) ∧
  build_toy_brain 4 0 [7] = Ok (add_nodes_from empty_graph (range 4), [7]) ∧
  (ValueError = ValueError ∧ (3 < 6)%Z ∧ (0 < 1)%Z) ∧
  embed_cycles 4 (S 1) (add_nodes_from empty_graph (range 4)) [2] = Raise ValueError ∧
  (∃ G1, add_cycle_edges (add_nodes_from empty_graph (range 4))
           (draw (Z.to_nat (randint 3 6 [1]).1) (range 4) (randint 3 6 [1]).2).1
           (randint 3 6 [1]).1 (range (randint 3 6 [1]).1) = Ok G1 ∧
         embed_cycles 4 (S 1) (add_nodes_from empty_graph (range 4)) [1]
         = embed_cycles 4 1 G1
             (draw (Z.to_nat (randint 3 6 [1]).1) (range 4) (randint 3 6 [1]).2).2) ∧
  (∃ G, build_toy_brain 4 2 [] = Ok (G, [])) ∧
  build_toy_brain 5 1 [3] = Raise ValueError.
Proof.
  split; [apply (build_toy_brain_failure_modes 2 1 [0]); lia|].
  split; [apply (build_toy_brain_failure_modes 6 2 [1; 2; 3; 4; 5; 6; 7; 8; 9]); lia|].
  split; [apply (build_toy_brain_failure_modes 4 0 [7]); lia|].
  split.
  { destruct (build_toy_brain_failure_modes 3 1 [1]) as (_ & _ & _ & Hfail & _).
    apply Hfail. vm_compute. reflexivity. }
  destruct (build_toy_brain_failure_modes 4 1 []) as (_ & _ & _ & _ & Hstep & _).
  split.
  { destruct (Hstep 1 (add_nodes_from empty_graph (range 4)) [2]) as (_ & Hsmall & _).
    apply Hsmall. vm_compute. reflexivity. }
  split.
  { destruct (Hstep 1 (add_nodes_from empty_graph (range 4)) [1]) as (_ & _ & Hfit).
    apply Hfit. vm_compute. discriminate. }
  split; [apply (build_toy_brain_failure_modes 4 2 [7]); lia|].
  apply (build_toy_brain_failure_modes 5 1 [7]); lia.
Defined.

(** C7 as stated fails: with 3 nodes and one cycle to embed, a draw of
    length 4 makes the sampler raise. *)
Lemma three_nodes_can_fail :
  (3 ≤ 3)%Z ∧ (0 ≤ 1)%Z ∧ build_toy_brain 3 1 [1] = Raise ValueError.
Proof. split_and!; [lia..|]. vm_compute. reflexivity. Qed.

Lemma build_toy_brain_loop_free_witness :
  wf_graph two_embedded_cycles ∧ loop_free two_embedded_cycles.
Proof.
  apply (build_toy_brain_loop_free 6 2 [1; 2; 3; 4; 5; 6; 7; 8; 9] []).
  vm_compute. reflexivity.
Defined.

Lemma collapse_graph_weights_witness :
  ∃ Hg, collapse_graph triangle two_clusters = Ok Hg ∧
    (∀ c, c ∈ nodes (wg_graph Hg) ↔ ∃ n, two_clusters !! n = Some c) ∧
    (∀ a b, wg_weight Hg !! (a, b) =
            if decide (a ≠ b ∧ edges_onto triangle two_clusters a b ≠ [])
            then Some (Z.of_nat (length (edges_onto triangle two_clusters a b)))
            else None) ∧
    (∀ a b, (a, b) ∈ edges (wg_graph Hg) ↔ is_Some (wg_weight Hg !! (a, b))) ∧
    (∀ a, (a, a) ∉ edges (wg_graph Hg)) ∧
    total_weight Hg = Z.of_nat (length (crossing_edges triangle two_clusters)).
Proof.
  exact (collapse_graph_weights triangle two_clusters wf_triangle two_clusters_total).
Defined.

Lemma collapse_graph_key_errors_witness :
  ∃ Hg, collapse_graph triangle two_clusters = Ok Hg.
Proof.
  apply (collapse_graph_key_errors triangle two_clusters).
  - apply wf_triangle.
  - apply two_clusters_total.
Defined.

(** C9 as stated fails: node 1 of the two isolated nodes has no cluster,
    and the collapser returns a graph all the same. *)
Lemma partial_clustering_accepted :
  ¬ total_clustering two_isolated partial_clustering ∧
  ∃ Hg, collapse_graph two_isolated partial_clustering = Ok Hg.
Proof.
  split.
  - intros Htot. destruct (Htot 1%Z) as [c Hc].
    + change (nodes two_isolated) with [0; 1]%Z. set_solver.
    + vm_compute in Hc. discriminate.
  - eexists. vm_compute. reflexivity.
Qed.

(** C4 on the path 0 -> 1 -> 2 -> 3: the walk of three edges is a walk of
    the graph and is not recorded, while the walks of one and two edges
    are, once each. *)
Theorem pcn_analysis_misses_three_edges :
  walk chain4 [0; 1; 2; 3]%Z ∧
  ∃ m, pcn_analysis chain4 = Some m ∧
       m !! [0; 1; 2; 3]%Z = None ∧
       m !! [0; 1; 2]%Z = Some 1%Z ∧ m !! [1; 2; 3]%Z = Some 1%Z ∧
       m !! [0; 1]%Z = Some 1%Z ∧ size m = 5.
Proof.
  split.
  - change (edge_log chain4) with [(0, 1); (1, 2); (2, 3)]%Z. simpl.
    change (edge_log chain4) with [(0, 1); (1, 2); (2, 3)]%Z. set_solver.
  - eexists. split; [vm_compute; reflexivity|]. by vm_compute.
Qed.
(** ** Counting active nodes, and more on the activation simulator *)

Section state_facts.
Context `{Countable K}.
Implicit Types (G : DiGraph K) (active : gmap K bool) (n : K).

Lemma count_active_nodes_length (m : gmap K bool) :
  count_active_nodes m
  = Z.of_nat (length (filter (λ item : K * bool, item.2 = true) (map_to_list m))).
Proof.
  unfold count_active_nodes.
  assert (∀ (l : list (K * bool)) (acc : Z),
            foldl (λ total item, if item.2 : bool then (total + 1)%Z else total) acc l
            = (acc + Z.of_nat (length (filter (λ item : K * bool, item.2 = true) l)))%Z)
    as Hfold.
  { induction l as [|[k b] l IH]; intros acc; cbn [foldl]; [simpl; lia|].
    rewrite IH, filter_cons. simpl. destruct b; case_decide; try done; simpl; lia. }
  rewrite Hfold. lia.
Qed.

Lemma elem_of_active_set (m : gmap K bool) (k : K) :
  k ∈ active_set m ↔ m !! k = Some true.
Proof.
  unfold active_set. rewrite elem_of_list_to_set, list_elem_of_fmap. split.
  - intros ([k' b] & -> & [Hb Hin%elem_of_map_to_list]%list_elem_of_filter).
    simpl in *. by subst.
  - intros Hk. exists (k, true). split; [done|].
    apply list_elem_of_filter. split; [done|]. by apply elem_of_map_to_list.
Qed.

Lemma count_active_nodes_size (m : gmap K bool) :
  count_active_nodes m = Z.of_nat (size (active_set m)).
Proof.
  rewrite count_active_nodes_length. f_equal. unfold active_set.
  rewrite size_list_to_set, length_fmap; [done|].
  eapply sublist_NoDup; [apply (NoDup_fst_map_to_list m)|].
  apply fmap_sublist, sublist_filter.
Qed.

(** X1: [count_active_nodes] returns the number of keys whose value is
    [True]: the size of the set of active nodes, between 0 and the number of
    entries of the state. *)
Theorem count_active_nodes_spec (m : gmap K bool) :
  count_active_nodes m = Z.of_nat (size (active_set m)) ∧
  (∀ k, k ∈ active_set m ↔ m !! k = Some true) ∧
  (0 ≤ count_active_nodes m ≤ Z.of_nat (size m))%Z.
Proof.
  split_and!; [apply count_active_nodes_size|apply elem_of_active_set| |].
  - rewrite count_active_nodes_length. lia.
  - rewrite count_active_nodes_length, <- (length_map_to_list m).
    apply inj_le, length_filter.
Qed.

Lemma active_set_seed G (start_active : list K) :
  active_set (seed (all_inactive G) start_active) = list_to_set start_active.
Proof.
  apply set_eq. intros k.
  rewrite elem_of_active_set, seed_all_inactive_lookup, elem_of_list_to_set.
  repeat case_decide; naive_solver.
Qed.

Lemma run_steps_dom G (thr : Z) (t : nat) active final :
  wf_graph G → covers G active → (∀ n, is_Some (active !! n) → n ∈ nodes G) →
  run_steps G thr t active = Ok final →
  covers G final ∧ ∀ n, is_Some (final !! n) → n ∈ nodes G.
Proof.
  intros HG. revert active. induction t as [|t IH]; intros active Hcov Hdom;
    cbn [run_steps].
  - by intros [= <-].
  - destruct (step_ok G thr active HG Hcov) as (new & -> & Hcn & Hnew).
    cbn [mbind result_mbind result_bind]. apply IH; [done|].
    intros n. rewrite Hnew. case_decide as Hd; [by destruct Hd|apply Hdom].
Qed.

Lemma active_set_mono (s s' : gmap K bool) :
  (∀ n, s !! n = Some true → s' !! n = Some true) →
  (count_active_nodes s ≤ count_active_nodes s')%Z.
Proof.
  intros Hmono. rewrite !count_active_nodes_size.
  apply inj_le, subseteq_size. intros k. rewrite !elem_of_active_set. apply Hmono.
Qed.

(** X2: the loop of [activate_cycles], entered with the state in which
    exactly the nodes of a duplicate-free list [start_active] of nodes of the
    graph are switched on, returns for every step count and every threshold
    a state over the nodes of the graph in which at least
    [len(start_active)] and at most [len(G.nodes())] nodes are active. *)
Theorem seeded_run_count_bounds G (steps thr : Z) (start_active : list K) :
  wf_graph G → NoDup start_active → start_active ⊆ nodes G →
  ∃ final : gmap K bool,
    run_steps G thr (Z.to_nat steps) (seed (all_inactive G) start_active) = Ok final ∧
    (∀ n, is_Some (final !! n) ↔ n ∈ nodes G) ∧
    (Z.of_nat (length start_active) ≤ count_active_nodes final
     ≤ Z.of_nat (length (nodes G)))%Z.
Proof.
  intros HG Hnd Hsub.
  set (init := seed (all_inactive G) start_active).
  destruct (run_steps_ok G thr (Z.to_nat steps) init HG) as (final & Hrun & _);
    [apply covers_seed|].
  exists final. split; [done|].
  destruct (run_steps_dom G thr (Z.to_nat steps) init final HG) as [Hcov Hdom];
    [apply covers_seed| |done|].
  { intros n. unfold init. rewrite seed_all_inactive_lookup.
    repeat case_decide; auto. by intros [? ?]. }
  split; [intros n; split; [apply Hdom|apply Hcov]|]. split.
  - transitivity (count_active_nodes init).
    + rewrite count_active_nodes_size. unfold init.
      by rewrite active_set_seed, size_list_to_set.
    + apply active_set_mono. intros n.
      by apply (run_steps_keeps_active G thr (Z.to_nat steps) init).
  - rewrite count_active_nodes_size.
    rewrite <- (size_list_to_set (C := gset K) (nodes G)) by apply HG.
    apply inj_le, subseteq_size. intros n Hn%elem_of_active_set.
    apply elem_of_list_to_set, Hdom. by eexists.
Qed.

Lemma length_active_nodes G (final : gmap K bool) :
  wf_graph G → (∀ n, is_Some (final !! n) → n ∈ nodes G) →
  Z.of_nat (length (active_nodes G final)) = count_active_nodes final.
Proof.
  intros HG Hdom. rewrite count_active_nodes_size. f_equal. unfold active_nodes.
  rewrite <- (size_list_to_set (C := gset K)) by (apply NoDup_filter, HG).
  f_equal. apply set_eq. intros k.
  rewrite elem_of_list_to_set, list_elem_of_filter, elem_of_active_set.
  split; [tauto|]. intros Hk. split; [done|]. apply Hdom. by eexists.
Qed.

(** X3: the number of active nodes never goes down along a run: the
    count after [t'] steps is at least the count after [t <= t'] steps. *)
Theorem count_active_nodes_monotone G (thr : Z) active (t t' : nat) (s s' : gmap K bool) :
  t ≤ t' →
  run_steps G thr t active = Ok s → run_steps G thr t' active = Ok s' →
  (count_active_nodes s ≤ count_active_nodes s')%Z.
Proof.
  intros Hle Hs Hs'. replace t' with (t + (t' - t)) in Hs' by lia.
  rewrite run_steps_app, Hs in Hs'. cbn [mbind result_mbind result_bind] in Hs'.
  apply active_set_mono. intros n. by apply (run_steps_keeps_active G thr (t' - t) s).
Qed.
End state_facts.
(** ** How activation spreads *)

Section spread_facts.
Context `{Countable K}.
Implicit Types (G : DiGraph K) (active : gmap K bool) (n : K).

Lemma active_predecessor_count_pos G active n :
  (1 ≤ active_predecessor_count G active n)%Z ↔
  ∃ pr, (pr, n) ∈ edge_log G ∧ active !! pr = Some true.
Proof.
  unfold active_predecessor_count.
  destruct (filter _ (predecessors G n)) as [|pr l] eqn:Hf.
  - split; [simpl; lia|]. intros (pr & Hin%elem_of_predecessors & Hpr).
    assert (pr ∈ filter (λ pr, active !! pr = Some true) (predecessors G n)) as Hin'
      by (by apply list_elem_of_filter).
    rewrite Hf in Hin'. by apply elem_of_nil in Hin'.
  - split; [intros _|simpl; lia].
    assert (pr ∈ filter (λ pr, active !! pr = Some true) (predecessors G n)) as Hin
      by (rewrite Hf; apply list_elem_of_here).
    apply list_elem_of_filter in Hin as [Hpr Hin%elem_of_predecessors]. eauto.
Qed.

Lemma active_predecessor_count_le G active n :
  (active_predecessor_count G active n ≤ Z.of_nat (length (predecessors G n)))%Z.
Proof. unfold active_predecessor_count. apply inj_le, length_filter. Qed.

Lemma reached_within_step G active (s1 : gmap K bool) (t : nat) n :
  wf_graph G →
  (∀ k, s1 !! k =
        if decide (k ∈ nodes G ∧ (1 ≤ active_predecessor_count G active k)%Z)
        then Some true else active !! k) →
  reached_within G s1 t n ↔ reached_within G active (S t) n.
Proof.
  intros HG Hs1. split.
  - intros (p & a1 & Hw & Hh & Hl & Ha1 & Hlen). rewrite Hs1 in Ha1.
    case_decide as Hd.
    + destruct Hd as [_ (pr & He & Hpr)%active_predecessor_count_pos].
      exists (pr :: p), pr. destruct p as [|x p]; [done|].
      injection Hh as ->. split_and!; [by split|done|done|done|simpl in *; lia].
    + exists p, a1. split_and!; [done..|lia].
  - intros (p & a0 & Hw & Hh & Hl & Ha0 & Hlen).
    destruct p as [|x [|a1 rest]]; [done| |]; injection Hh as ->.
    + exists [a0], a0. split_and!; [done..| |simpl; lia].
      rewrite Hs1. case_decide; done.
    + destruct Hw as [He Hw]. exists (a1 :: rest), a1.
      split_and!; [done..| |simpl in *; lia].
      rewrite Hs1, decide_True; [done|]. split.
      * destruct HG as (_ & _ & Hc). by destruct (Hc a0 a1 He).
      * apply active_predecessor_count_pos. eauto.
Qed.

(** X4: with the threshold 1 (the default), the nodes active after [t]
    steps are exactly the nodes reached from an initially active node by a
    walk of at most [t] edges. *)
Theorem activation_reaches G active (t : nat) (s : gmap K bool) :
  wf_graph G → covers G active →
  run_steps G 1 t active = Ok s →
  ∀ n, s !! n = Some true ↔ reached_within G active t n.
Proof.
  intros HG. revert active. induction t as [|t IH]; intros active Hcov; cbn [run_steps].
  - intros [= <-] n. split.
    + intros Hn. exists [n], n. split_and!; [done..|simpl; lia].
    + intros (p & a & _ & Hh & Hl & Ha & Hlen).
      destruct p as [|x [|y p]]; [done| |simpl in Hlen; lia].
      injection Hh as ->. injection Hl as ->. done.
  - destruct (step_ok G 1 active HG Hcov) as (s1 & -> & Hcov1 & Hs1).
    cbn [mbind result_mbind result_bind]. intros Hrun n.
    rewrite (IH s1 Hcov1 Hrun n). by apply reached_within_step.
Qed.

(** X5: a node with fewer predecessors than the threshold is never
    switched on: its entry after any number of steps is its initial entry.
    With a threshold of at least 1 this covers every node without
    predecessors. *)
Theorem low_in_degree_unchanged G (thr : Z) active (t : nat) (s : gmap K bool) n :
  wf_graph G → covers G active →
  (Z.of_nat (length (predecessors G n)) < thr)%Z →
  run_steps G thr t active = Ok s →
  s !! n = active !! n.
Proof.
  intros HG Hcov Hdeg. revert active Hcov. induction t as [|t IH]; intros active Hcov;
    cbn [run_steps].
  - by intros [= <-].
  - destruct (step_ok G thr active HG Hcov) as (s1 & -> & Hcov1 & Hs1).
    cbn [mbind result_mbind result_bind]. intros Hrun.
    rewrite (IH s1 Hcov1 Hrun), Hs1. rewrite decide_False; [done|].
    intros [_ Hc]. pose proof (active_predecessor_count_le G active n). lia.
Qed.

(** X6: with a threshold of at least 1 nothing starts by itself: from a
    state without active node every step returns that same state. *)
Theorem no_spontaneous_activation G (thr : Z) active (t : nat) :
  wf_graph G → covers G active → (1 ≤ thr)%Z →
  (∀ k, active !! k ≠ Some true) →
  run_steps G thr t active = Ok active.
Proof.
  intros HG Hcov Hthr Hnone. induction t as [|t IH]; cbn [run_steps]; [done|].
  destruct (step_ok G thr active HG Hcov) as (s1 & -> & _ & Hs1).
  cbn [mbind result_mbind result_bind].
  assert (s1 = active) as ->; [|done].
  apply map_eq. intros k. rewrite Hs1, decide_False; [done|].
  intros [_ Hc]. assert (1 ≤ active_predecessor_count G active k)%Z as Hpos by lia.
  apply active_predecessor_count_pos in Hpos as (pr & _ & Hpr). by apply (Hnone pr).
Qed.

Lemma filter_length_strict {A : Type} (P Q : A → Prop)
    `{!∀ x, Decision (P x), !∀ x, Decision (Q x)} (l : list A) (y : A) :
  (∀ x, x ∈ l → P x → Q x) → y ∈ l → Q y → ¬ P y →
  length (filter P l) < length (filter Q l).
Proof.
  intros Himp Hy HQ HP.
  assert (∀ l', (∀ x, x ∈ l' → P x → Q x) → length (filter P l') ≤ length (filter Q l'))
    as Hle.
  { induction l' as [|x l' IH']; intros Hi; [done|]. rewrite !filter_cons.
    specialize (IH' (λ z Hz, Hi z (list_elem_of_further _ _ _ Hz))).
    destruct (decide (P x)) as [HPx|]; destruct (decide (Q x)) as [|HQx]; simpl; try lia.
    destruct HQx. apply Hi; [apply list_elem_of_here|done]. }
  induction l as [|x l IH]; [by apply elem_of_nil in Hy|].
  rewrite !filter_cons. apply elem_of_cons in Hy as [->|Hy].
  - rewrite decide_False, decide_True by done. simpl.
    specialize (Hle l (λ z Hz, Himp z (list_elem_of_further _ _ _ Hz))). lia.
  - specialize (IH (λ z Hz, Himp z (list_elem_of_further _ _ _ Hz)) Hy).
    destruct (decide (P x)) as [HPx|]; destruct (decide (Q x)) as [|HQx]; simpl; try lia.
    destruct HQx. apply Himp; [apply list_elem_of_here|done].
Qed.

Lemma step_progress G (thr : Z) active (new_active : gmap K bool) :
  wf_graph G → covers G active →
  step G thr active = Ok new_active →
  new_active = active ∨
  length (active_nodes G active) < length (active_nodes G new_active).
Proof.
  intros HG Hcov Hstep.
  destruct (step_ok G thr active HG Hcov) as (new & Hstep' & _ & Hnew).
  rewrite Hstep in Hstep'. injection Hstep' as <-.
  destruct (decide (Exists (λ k, new_active !! k ≠ active !! k) (nodes G)))
    as [Hex|Hno].
  2:{ left. apply map_eq. intros k. rewrite Hnew. case_decide as Hd; [|done].
      destruct (decide (new_active !! k = active !! k)) as [Hs|Hs].
      - rewrite <- Hs, Hnew. by rewrite decide_True.
      - destruct Hno. apply Exists_exists. exists k. by destruct Hd. }
  right. apply Exists_exists in Hex as (k & _ & Hk).
  rewrite Hnew in Hk. case_decide as Hd; [|done]. destruct Hd as [Hin Hc].
  unfold active_nodes. apply (filter_length_strict _ _ _ k); [|done| |done].
  - intros x _. by apply (step_keeps_active G thr).
  - rewrite Hnew, decide_True; done.
Qed.

Lemma run_steps_fixed G (thr : Z) (k : nat) (s : gmap K bool) :
  step G thr s = Ok s → run_steps G thr k s = Ok s.
Proof. intros Hfix. induction k as [|k IH]; cbn [run_steps]; [done|]. by rewrite Hfix. Qed.

Lemma run_steps_progress G (thr : Z) (t : nat) active (s : gmap K bool) :
  wf_graph G → covers G active →
  run_steps G thr t active = Ok s →
  covers G s ∧
  (step G thr s = Ok s ∨ t + length (active_nodes G active) ≤ length (active_nodes G s)).
Proof.
  intros HG Hcov. revert s. induction t as [|t IH]; intros s.
  - intros [= <-]. split; [done|]. right. lia.
  - replace (S t) with (t + 1) by lia. rewrite run_steps_app.
    destruct (run_steps G thr t active) as [st|e] eqn:Ht; [|done].
    cbn [mbind result_mbind result_bind run_steps].
    destruct (IH st eq_refl) as [Hcst Hor].
    destruct (step_ok G thr st HG Hcst) as (s' & Hs' & Hcs' & _). rewrite Hs'.
    cbn [mbind result_mbind result_bind]. intros [= <-]. split; [done|].
    destruct Hor as [Hfix|Hgrow].
    + left. rewrite Hfix in Hs'. injection Hs' as <-. done.
    + destruct (step_progress G thr st s' HG Hcst Hs') as [->|Hlt]; [by left|right; lia].
Qed.

(** X7: a run settles within [len(G.nodes())] steps: the state after that
    many steps is a fixed point of the step, so every later state is the
    same. *)
Theorem activation_settles G (thr : Z) active (k : nat) :
  wf_graph G → covers G active →
  ∃ s, run_steps G thr (length (nodes G)) active = Ok s ∧
       step G thr s = Ok s ∧
       run_steps G thr (length (nodes G) + k) active = Ok s.
Proof.
  intros HG Hcov.
  destruct (run_steps_ok G thr (length (nodes G)) active HG Hcov) as (s & Hs & _).
  destruct (run_steps_progress G thr _ active s HG Hcov Hs) as [Hcs Hor].
  assert (step G thr s = Ok s) as Hfix.
  { destruct Hor as [|Hfull]; [done|].
    destruct (step_ok G thr s HG Hcs) as (s' & Hs' & _).
    destruct (step_progress G thr s s' HG Hcs Hs') as [->|Hlt]; [done|].
    pose proof (length_filter (λ n, s' !! n = Some true) (nodes G)) as Hb.
    unfold active_nodes in *. lia. }
  exists s. split_and!; [done..|].
  rewrite run_steps_app, Hs. cbn [mbind result_mbind result_bind].
  by apply run_steps_fixed.
Qed.
End spread_facts.
(** ** The cycle enumerator finds every cycle *)

Section cycle_completeness.
Context {K : Type} `{!EqDecision K}.
Implicit Types (G : DiGraph K) (n : K) (path q : list K) (st : list (K * list K))
  (cycles : list (list K)).

Lemma scan_successors_grows n (max_length : Z) path (nbrs : list K) cycles st :
  (∀ c, c ∈ cycles → c ∈ (scan_successors n max_length path nbrs cycles st).1) ∧
  (∀ f, f ∈ st → f ∈ (scan_successors n max_length path nbrs cycles st).2).
Proof.
  revert cycles st. induction nbrs as [|x nbrs IH]; intros cycles st;
    cbn [scan_successors]; [done|].
  repeat case_decide.
  - destruct (IH (cycles ++ [path ++ [n]]) st) as [IH1 IH2]. split; [|done].
    intros c Hc. apply IH1, elem_of_app. by left.
  - destruct (IH cycles ((x, path ++ [x]) :: st)) as [IH1 IH2]. split; [done|].
    intros f Hf. by apply IH2, list_elem_of_further.
  - apply IH.
Qed.

Lemma scan_successors_emits n (max_length : Z) path (nbrs : list K) cycles st :
  n ∈ nbrs → (1 < Z.of_nat (length path))%Z → (Z.of_nat (length path) ≤ max_length)%Z →
  path ++ [n] ∈ (scan_successors n max_length path nbrs cycles st).1.
Proof.
  intros Hin H1 H2. revert cycles st.
  induction nbrs as [|x nbrs IH]; intros cycles st; [by apply elem_of_nil in Hin|].
  cbn [scan_successors]. apply elem_of_cons in Hin as [<-|Hin].
  - rewrite decide_True by done.
    apply (scan_successors_grows n max_length path nbrs), elem_of_app. right.
    apply list_elem_of_here.
  - repeat case_decide; by apply IH.
Qed.

Lemma scan_successors_pushes n (max_length : Z) path (nbrs : list K) cycles st (x : K) :
  x ∈ nbrs → x ≠ n → x ∉ path → (Z.of_nat (length path) < max_length)%Z →
  (x, path ++ [x]) ∈ (scan_successors n max_length path nbrs cycles st).2.
Proof.
  intros Hin Hne Hnot Hlt. revert cycles st.
  induction nbrs as [|y nbrs IH]; intros cycles st; [by apply elem_of_nil in Hin|].
  cbn [scan_successors]. apply elem_of_cons in Hin as [<-|Hin].
  - rewrite decide_False by (by intros [? _]). rewrite decide_True by done.
    apply (scan_successors_grows n max_length path nbrs), list_elem_of_here.
  - repeat case_decide; by apply IH.
Qed.

Lemma walk_app_edge G path (cur x : K) (rest : list K) :
  walk G (path ++ x :: rest) → last path = Some cur → (cur, x) ∈ edge_log G.
Proof.
  induction path as [|u [|v p] IH]; intros Hw Hl; [done| |].
  - injection Hl as ->. by destruct Hw.
  - destruct Hw as [_ Hw]. by apply IH.
Qed.

Lemma walk_app_l G (p1 p2 : list K) : walk G (p1 ++ p2) → walk G p1.
Proof.
  induction p1 as [|u [|v p] IH]; intros Hw; [done..|].
  destruct Hw as [He Hw]. split; [done|]. by apply IH.
Qed.

Lemma walk_tail G (u : K) (p : list K) : walk G (u :: p) → walk G p.
Proof. destruct p; [done|]. by intros [_ ?]. Qed.

Lemma dfs_loop_grows (fuel : nat) G n (max_length : Z) st cycles (found : list (list K)) :
  dfs_loop fuel G n max_length st cycles = Some found →
  ∀ c, c ∈ cycles → c ∈ found.
Proof.
  revert st cycles. induction fuel as [|fuel IH]; intros st cycles; cbn [dfs_loop]; [done|].
  destruct st as [|[current path] st]; [by intros [= ->]|].
  pose proof (scan_successors_grows n max_length path (successors G current) cycles st)
    as [Hg _].
  destruct (scan_successors _ _ _ _ _ _) as [cycles' st']. simpl in Hg.
  intros Hrun c Hc. by eapply IH, Hg.
Qed.

Lemma dfs_loop_complete (fuel : nat) G n (max_length : Z) q (lastq : K) st cycles
    (found : list (list K)) :
  head q = Some n → NoDup q → walk G q → last q = Some lastq →
  (lastq, n) ∈ edge_log G →
  (1 < Z.of_nat (length q))%Z → (Z.of_nat (length q) ≤ max_length)%Z →
  dfs_loop fuel G n max_length st cycles = Some found →
  pending n q cycles st → q ++ [n] ∈ found.
Proof.
  intros Hh Hnd Hw Hl He H1 H2.
  revert st cycles. induction fuel as [|fuel IH]; intros st cycles; cbn [dfs_loop]; [done|].
  destruct st as [|[current path] st].
  { intros [= ->] [Hin|(f & Hf & _)]; [done|]. by apply elem_of_nil in Hf. }
  pose proof (scan_successors_grows n max_length path (successors G current) cycles st)
    as [Hgc Hgs].
  pose proof (scan_successors_emits n max_length path (successors G current) cycles st)
    as Hemit.
  pose proof (λ x, scan_successors_pushes n max_length path (successors G current)
                     cycles st x) as Hpush.
  destruct (scan_successors _ _ _ _ _ _) as [cycles' st']. simpl in *.
  intros Hrun Hpend. apply (IH st' cycles' Hrun).
  destruct Hpend as [Hin|(f & Hf & Hpre & Hlf)]; [left; by apply Hgc|].
  apply elem_of_cons in Hf as [->|Hf]; [|right; exists f; split_and!; [by apply Hgs|done..]].
  simpl in *. destruct Hpre as [rest ->]. destruct rest as [|x rest].
  - left. rewrite app_nil_r in *. rewrite Hlf in Hl. injection Hl as ->.
    apply Hemit; [|done..]. by apply elem_of_successors.
  - right. exists (x, path ++ [x]). simpl.
    assert (n ∈ path) as Hn.
    { destruct path as [|u p]; [done|]. injection Hh as ->. apply list_elem_of_here. }
    apply NoDup_app in Hnd as (_ & Hdisj & _).
    assert (x ∉ path) as Hx.
    { intros Hin. apply (Hdisj x Hin), list_elem_of_here. }
    split_and!.
    + apply Hpush.
      * apply elem_of_successors. by eapply walk_app_edge.
      * intros ->. done.
      * done.
      * rewrite length_app in H2. simpl in H2. lia.
    + exists rest. by rewrite <- app_assoc.
    + by rewrite last_snoc.
Qed.

Lemma search_from_grows G (max_length : Z) (starts : list K) cycles (found : list (list K)) :
  search_from G max_length starts cycles = Some found →
  ∀ c, c ∈ cycles → c ∈ found.
Proof.
  revert cycles. induction starts as [|n starts IH]; intros cycles; cbn [search_from].
  { by intros [= ->]. }
  destruct (dfs_loop _ G n max_length [(n, [n])] cycles) as [cycles'|] eqn:Hd; [|done].
  simpl. intros Hrun c Hc. apply (IH _ Hrun). by eapply dfs_loop_grows.
Qed.

Lemma search_from_complete G (max_length : Z) (starts : list K) cycles
    (found : list (list K)) n q (lastq : K) :
  head q = Some n → NoDup q → walk G q → last q = Some lastq →
  (lastq, n) ∈ edge_log G →
  (1 < Z.of_nat (length q))%Z → (Z.of_nat (length q) ≤ max_length)%Z →
  n ∈ starts →
  search_from G max_length starts cycles = Some found → q ++ [n] ∈ found.
Proof.
  intros Hh Hnd Hw Hl He H1 H2. revert cycles.
  induction starts as [|m starts IH]; intros cycles Hin; [by apply elem_of_nil in Hin|].
  cbn [search_from].
  destruct (dfs_loop _ G m max_length [(m, [m])] cycles) as [cycles'|] eqn:Hd; [|done].
  simpl. intros Hrun.
  destruct (decide (m = n)) as [->|Hne].
  - apply (search_from_grows _ _ _ _ _ Hrun).
    eapply (dfs_loop_complete _ G n max_length q lastq); [done..|].
    right. exists (n, [n]). split_and!; [apply list_elem_of_here| |done].
    simpl. destruct q as [|u q]; [done|]. injection Hh as ->. by exists q.
  - apply elem_of_cons in Hin as [->|Hin]; [done|]. by apply (IH cycles').
Qed.

Lemma simple_cycle_split G (max_length : Z) (c : list K) :
  simple_cycle G max_length c →
  ∃ n q lastq, c = q ++ [n] ∧ head q = Some n ∧ NoDup q ∧ walk G q ∧
               last q = Some lastq ∧ (lastq, n) ∈ edge_log G ∧
               (1 < Z.of_nat (length q))%Z ∧ (Z.of_nat (length q) ≤ max_length)%Z.
Proof.
  intros (Hw & [n Hh] & Heq & Hnd & Hlen). unfold edge_count in Hlen.
  rewrite Hh in Heq. symmetry in Heq.
  destruct (last_is_Some c) as [_ Hsome].
  assert (∃ q, c = q ++ [n]) as [q ->].
  { destruct c as [|u c] using rev_ind; [done|]. rewrite last_snoc in Heq.
    injection Heq as ->. by exists c. }
  rewrite interior_snoc in Hnd. rewrite length_app in Hlen. simpl in Hlen.
  destruct q as [|u q]; [simpl in Hlen; lia|]. injection Hh as ->.
  destruct (last_is_Some (n :: q)) as [_ [lastq Hlq]]; [done|].
  exists n, (n :: q), lastq. split_and!; [done..|by eapply walk_app_l| done| |lia|lia].
  clear -Hw Hlq. revert Hw Hlq. generalize (n :: q) as p.
  induction p as [|u [|v p] IH]; intros Hw Hl; [done| |].
  - injection Hl as ->. by destruct Hw.
  - destruct Hw as [_ Hw]. by apply IH.
Qed.

(** X8: on a well-formed graph the enumerator returns exactly the simple
    cycles of 2 to [max_length] edges, each as a list that starts and ends at
    the same node: nothing it returns is not one, and every one is
    returned. *)
Theorem find_all_cycles_complete G (max_length : Z) :
  wf_graph G →
  ∃ cycles, find_all_cycles G max_length = Some cycles ∧
            ∀ c, c ∈ cycles ↔ simple_cycle G max_length c.
Proof.
  intros HG.
  destruct (search_from_sound G max_length (nodes G) []) as (found & Hrun & Hall);
    [apply Forall_nil_2|].
  exists found. split; [done|]. intros c. split.
  - apply (proj1 (Forall_forall _ _) Hall).
  - intros (n & q & lastq & -> & Hh & Hnd & Hw & Hl & He & H1 & H2)%simple_cycle_split.
    eapply search_from_complete; [done..| |done].
    destruct HG as (_ & _ & Hc). by destruct (Hc lastq n He).
Qed.

(** X9: rotations are not merged: with a cycle through [n] and then
    [r], the enumerator also returns the same cycle started at [r]. *)
Theorem find_all_cycles_rotations G (max_length : Z) (cycles : list (list K))
    (n r : K) (rest : list K) :
  wf_graph G →
  find_all_cycles G max_length = Some cycles →
  (n :: r :: rest) ++ [n] ∈ cycles →
  (r :: rest) ++ [n; r] ∈ cycles.
Proof.
  intros HG Hrun Hin.
  destruct (search_from_sound G max_length (nodes G) []) as (found & Hrun' & Hall);
    [apply Forall_nil_2|].
  unfold find_all_cycles in Hrun. rewrite Hrun in Hrun'. injection Hrun' as <-.
  pose proof (proj1 (Forall_forall _ _) Hall _ Hin) as (Hw & _ & _ & Hnd & Hlen).
  rewrite interior_snoc in Hnd. unfold edge_count in Hlen.
  rewrite length_app in Hlen. simpl in Hlen, Hw. destruct Hw as [Hnr Hw].
  replace ((r :: rest) ++ [n; r]) with (((r :: rest) ++ [n]) ++ [r])
    by (by rewrite <- app_assoc).
  eapply (search_from_complete G max_length (nodes G) [] cycles r _ n); try done.
  - eapply NoDup_Permutation_proper; [|exact Hnd].
    change (n :: r :: rest) with ([n] ++ (r :: rest)). apply Permutation_app_comm.
  - by rewrite last_snoc.
  - rewrite length_app. simpl. lia.
  - rewrite length_app. simpl. lia.
  - destruct HG as (_ & _ & Hc). by destruct (Hc n r Hnr).
Qed.

(** X10: a bound below 2 leaves nothing to find: the enumerator returns
    the empty list. *)
Theorem find_all_cycles_small_bound G (max_length : Z) :
  (max_length < 2)%Z → find_all_cycles G max_length = Some [].
Proof.
  intros Hlt.
  destruct (search_from_sound G max_length (nodes G) []) as (found & Hrun & Hall);
    [apply Forall_nil_2|].
  unfold find_all_cycles. rewrite Hrun. f_equal.
  destruct found as [|c found]; [done|].
  apply Forall_cons in Hall as [(_ & _ & _ & _ & Hlen) _]. lia.
Qed.
End cycle_completeness.
(** ** Comparing two lists of cycles *)

Section overlap_facts.
Context `{Countable K}.
Implicit Types (cycles_a cycles_b : list (list K)).

Lemma cycle_overlap_length cycles_a cycles_b :
  cycle_overlap cycles_a cycles_b
  = Z.of_nat (length (filter (λ c, c ∈ cycles_b) cycles_a)).
Proof.
  unfold cycle_overlap. cbv zeta.
  assert (∀ (l : list (list K)) (acc : Z),
            foldl (λ overlap_count c,
                     if decide (c ∈ (list_to_set cycles_b : gset (list K)))
                     then (overlap_count + 1)%Z else overlap_count) acc l
            = (acc + Z.of_nat (length (filter (λ c, c ∈ cycles_b) l)))%Z) as Hfold.
  { induction l as [|c l IH]; intros acc; cbn [foldl]; [simpl; lia|].
    rewrite IH, filter_cons.
    destruct (decide (c ∈ cycles_b)) as [Hin|Hnot].
    - rewrite decide_True by (by apply elem_of_list_to_set). simpl. lia.
    - rewrite decide_False by (by rewrite elem_of_list_to_set). lia. }
  rewrite Hfold. lia.
Qed.

Lemma filter_all {A : Type} (P : A → Prop) `{!∀ x, Decision (P x)} (l : list A) :
  (∀ x, x ∈ l → P x) → filter P l = l.
Proof.
  induction l as [|x l IH]; intros Hall; [done|].
  rewrite filter_cons, decide_True by apply Hall, list_elem_of_here.
  f_equal. apply IH. intros y Hy. by apply Hall, list_elem_of_further.
Qed.

(** X11: [cycle_overlap] counts the entries of [cycles_a], each as often
    as it is listed, that occur in [cycles_b]; the result lies between 0 and
    [len(cycles_a)], a list overlaps itself in full, and nothing overlaps the
    empty list. *)
Theorem cycle_overlap_counts cycles_a cycles_b :
  cycle_overlap cycles_a cycles_b
  = Z.of_nat (length (filter (λ c, c ∈ cycles_b) cycles_a)) ∧
  (0 ≤ cycle_overlap cycles_a cycles_b ≤ Z.of_nat (length cycles_a))%Z ∧
  cycle_overlap cycles_a cycles_a = Z.of_nat (length cycles_a) ∧
  cycle_overlap cycles_a [] = 0%Z.
Proof.
  rewrite !cycle_overlap_length. split_and!; [done|lia| | |].
  - apply inj_le, length_filter.
  - by rewrite filter_all.
  - destruct (filter _ cycles_a) as [|c l] eqn:Hf; [done|].
    assert (c ∈ filter (λ c, c ∈ ([] : list (list K))) cycles_a) as Hin
      by (rewrite Hf; apply list_elem_of_here).
    apply list_elem_of_filter in Hin as [Hin _]. by apply elem_of_nil in Hin.
Qed.

(** X12: on lists without repeated cycles the overlap is symmetric: it is
    the number of cycles the two lists share. *)
Theorem cycle_overlap_sym cycles_a cycles_b :
  NoDup cycles_a → NoDup cycles_b →
  cycle_overlap cycles_a cycles_b = cycle_overlap cycles_b cycles_a.
Proof.
  intros Ha Hb.
  assert (∀ l k : list (list K), NoDup l →
            length (filter (λ c, c ∈ k) l)
            = size ((list_to_set l : gset (list K)) ∩ list_to_set k)) as Hsize.
  { intros l k Hl. rewrite <- (size_list_to_set (C := gset (list K)))
      by by apply NoDup_filter.
    f_equal. apply set_eq. intros c.
    rewrite elem_of_intersection, !elem_of_list_to_set, list_elem_of_filter. tauto. }
  rewrite !cycle_overlap_length, !Hsize by done.
  f_equal. f_equal. apply set_eq. intros c. rewrite !elem_of_intersection. tauto.
Qed.

(** X13: raising the bound loses no cycle: every cycle found with the
    bound [m] is found with a bound [m' >= m], so the overlap of the two
    results is the length of the first. *)
Theorem cycle_overlap_larger_bound (G : DiGraph K) (m m' : Z)
    (cycles cycles' : list (list K)) :
  wf_graph G → (m ≤ m')%Z →
  find_all_cycles G m = Some cycles → find_all_cycles G m' = Some cycles' →
  cycle_overlap cycles cycles' = Z.of_nat (length cycles).
Proof.
  intros HG Hle Hrun Hrun'. rewrite cycle_overlap_length. f_equal. f_equal.
  apply filter_all. intros c Hc.
  destruct (search_from_sound G m (nodes G) []) as (found & Hf & Hall);
    [apply Forall_nil_2|].
  unfold find_all_cycles in Hrun. rewrite Hrun in Hf. injection Hf as <-.
  pose proof (proj1 (Forall_forall _ _) Hall c Hc) as Hsc.
  apply simple_cycle_split in Hsc
    as (n & q & lastq & -> & Hh & Hnd & Hw & Hl & He & H1 & H2).
  eapply (search_from_complete G m' (nodes G) [] cycles' n q lastq); try done; [lia|].
  destruct HG as (_ & _ & Hc'). by destruct (Hc' lastq n He).
Qed.
End overlap_facts.
(** ** Random clusterings and the graphs they collapse to *)

Lemma choice_ok {A : Type} (seq : list A) (r : rng) :
  seq ≠ [] → ∃ x r', choice seq r = Ok (x, r') ∧ x ∈ seq.
Proof.
  intros Hne. unfold choice. destruct seq as [|a seq]; [done|].
  pose proof (randbelow_lt (length (a :: seq)) r) as Hlt.
  destruct (randbelow (length (a :: seq)) r) as [j r'].
  destruct (lookup_lt_is_Some_2 (a :: seq) j) as [x Hx]; [apply Hlt; simpl; lia|].
  rewrite Hx. exists x, r'. split; [done|]. by eapply list_elem_of_lookup_2.
Qed.

Section clustering_facts.
Context `{Countable K}.
Implicit Types (G : DiGraph K) (cl : gmap K Z) (r : rng).

Lemma assign_clusters_ok (cluster_ids : list Z) (ns : list K) cl r :
  cluster_ids ≠ [] →
  ∃ cl' r', assign_clusters cluster_ids ns cl r = Ok (cl', r') ∧
    (∀ n, n ∈ ns → ∃ c, cl' !! n = Some c ∧ c ∈ cluster_ids) ∧
    (∀ n, n ∉ ns → cl' !! n = cl !! n).
Proof.
  intros Hids. revert cl r. induction ns as [|node rest IH]; intros cl r;
    cbn [assign_clusters].
  { exists cl, r. split_and!; [done| |done]. by intros n ?%elem_of_nil. }
  destruct (choice_ok cluster_ids r Hids) as (c & r1 & -> & Hc).
  cbn [mbind result_mbind result_bind].
  destruct (IH (<[node:=c]> cl) r1) as (cl' & r' & -> & Hin & Hout).
  exists cl', r'. split_and!; [done| |].
  - intros n [->|Hn]%elem_of_cons; [|by apply Hin].
    destruct (decide (node ∈ rest)) as [Hr|Hr]; [by apply Hin|].
    exists c. by rewrite (Hout node Hr), lookup_insert_eq.
  - intros n Hn. rewrite not_elem_of_cons in Hn. destruct Hn as [Hne Hn].
    by rewrite (Hout n Hn), lookup_insert_ne.
Qed.

Lemma range_nonempty (k : Z) : (1 ≤ k)%Z → range k ≠ [].
Proof.
  intros Hk Hnil. pose proof (range_length k) as Hlen. rewrite Hnil in Hlen.
  simpl in Hlen. lia.
Qed.

Lemma range_empty (k : Z) : (k ≤ 0)%Z → range k = [].
Proof.
  intros Hk. apply nil_length_inv. pose proof (range_length k). lia.
Qed.

Lemma elem_of_range (k c : Z) : c ∈ range k ↔ (0 ≤ c < k)%Z.
Proof. unfold range. rewrite elem_of_seqZ. lia. Qed.

(** X14: for [k >= 1] the random clustering never fails and is a total
    clustering of the graph: it has an entry for exactly the nodes of [G],
    and every cluster identifier lies in [0 .. k-1]. *)
Theorem simple_random_clustering_total G (k : Z) r :
  (1 ≤ k)%Z →
  ∃ cl r', simple_random_clustering G k r = Ok (cl, r') ∧
    (∀ n, is_Some (cl !! n) ↔ n ∈ nodes G) ∧
    (∀ n c, cl !! n = Some c → (0 ≤ c < k)%Z).
Proof.
  intros Hk. unfold simple_random_clustering.
  destruct (assign_clusters_ok (range k) (nodes G) ∅ r (range_nonempty k Hk))
    as (cl & r' & Hrun & Hin & Hout).
  exists cl, r'. split_and!; [done| |].
  - intros n. split.
    + intros Hn. destruct (decide (n ∈ nodes G)) as [|Hno]; [done|].
      rewrite (Hout n Hno), lookup_empty in Hn. by destruct Hn.
    + intros Hn. destruct (Hin n Hn) as (c & -> & _). by eexists.
  - intros n c Hn. destruct (decide (n ∈ nodes G)) as [Hyes|Hno].
    + destruct (Hin n Hyes) as (c' & Hc' & Hr). rewrite Hc' in Hn.
      injection Hn as <-. by apply elem_of_range.
    + by rewrite (Hout n Hno), lookup_empty in Hn.
Qed.

(** X15: with [k <= 0] there is no cluster to choose from: the random
    clustering raises [IndexError] on a graph that has a node, and returns
    the empty clustering, drawing nothing, on the empty graph. *)
Theorem simple_random_clustering_no_cluster G (k : Z) r :
  (k ≤ 0)%Z →
  (nodes G ≠ [] → simple_random_clustering G k r = Raise IndexError) ∧
  (nodes G = [] → simple_random_clustering G k r = Ok (∅, r)).
Proof.
  intros Hk. unfold simple_random_clustering. rewrite (range_empty k Hk). split.
  - intros Hne. by destruct (nodes G).
  - by intros ->.
Qed.
End clustering_facts.

Section collapse_more.
Context `{Countable K} `{Countable C}.
Implicit Types (G : DiGraph K) (cl : gmap K C) (Hg : WeightedDiGraph C).

Lemma NoDup_successors G (u : K) : NoDup (edge_log G) → NoDup (successors G u).
Proof.
  intros Hnd. unfold successors. apply NoDup_fmap_2_strong; [|by apply NoDup_filter].
  intros [a b] [a' b'] [Ha _]%list_elem_of_filter [Ha' _]%list_elem_of_filter Heq.
  simpl in *. by subst.
Qed.

Lemma NoDup_edges G : wf_graph G → NoDup (edges G).
Proof.
  intros (Hn & He & _). unfold edges. apply NoDup_bind; [| |done].
  - intros u u' e _ _ [v [-> _]]%list_elem_of_fmap [v' [[= -> _] _]]%list_elem_of_fmap.
    done.
  - intros u _. apply NoDup_fmap_2; [|by apply NoDup_successors].
    by intros v v' [= ->].
Qed.

Lemma edges_Permutation G : wf_graph G → edges G ≡ₚ edge_log G.
Proof.
  intros HG. apply NoDup_Permutation; [by apply NoDup_edges|apply HG|].
  intros e. by apply elem_of_edges.
Qed.

Lemma collapse_graph_inv G cl :
  Forall (covered cl) (edges G) →
  ∃ Hg, collapse_graph G cl = Ok Hg ∧ collapse_inv cl (edges G) Hg.
Proof.
  intros Hcov. unfold collapse_graph.
  destruct (collapse_edges_spec cl (edges G) [] _ (collapse_inv_initial cl)) as [Hok _].
  destruct (Hok Hcov) as (Hg & Hrun & Hinv). by exists Hg.
Qed.

(** X16: collapsing onto a single cluster leaves no edge: when every node
    of [G] is in the cluster [c0], the collapsed graph has no edge, no
    weight and the total weight 0. *)
Theorem collapse_graph_single_cluster G cl (c0 : C) :
  wf_graph G → (∀ n, n ∈ nodes G → cl !! n = Some c0) →
  ∃ Hg, collapse_graph G cl = Ok Hg ∧
        edges (wg_graph Hg) = [] ∧ wg_weight Hg = ∅ ∧ total_weight Hg = 0%Z.
Proof.
  intros HG Hone.
  assert (total_clustering G cl) as Htot by (intros n Hn; rewrite (Hone n Hn); by eexists).
  destruct (collapse_graph_inv G cl (total_clustering_covered G cl HG Htot))
    as (Hg & Hrun & Hwf & Hn & He & Hw & Ht).
  assert (wg_weight Hg = ∅) as Hempty.
  { apply map_empty. intros [a b]. rewrite Hw. apply decide_False.
    intros [Hab Hne]. destruct (onto cl a b (edges G)) as [|[u v] l] eqn:Ho; [done|].
    assert ((u, v) ∈ onto cl a b (edges G)) as Hin by (rewrite Ho; apply list_elem_of_here).
    apply list_elem_of_filter in Hin as [[Hu Hv] Huv%elem_of_edges]; [|done].
    simpl in *. destruct HG as (_ & _ & Hc). destruct (Hc u v Huv) as [Hun Hvn].
    rewrite (Hone u Hun) in Hu. rewrite (Hone v Hvn) in Hv. congruence. }
  exists Hg. split_and!; [done| |done|].
  - apply elem_of_nil_inv. intros [a b] Hab%elem_of_edges; [|done].
    apply He in Hab. rewrite Hempty, lookup_empty in Hab. by destruct Hab.
  - unfold total_weight, sum_weights. rewrite Hempty. apply map_fold_empty.
Qed.

(** X17: collapsing along a clustering that puts every node in a cluster
    of its own copies the graph: every weight is 1, and the clusters of [u]
    and [v] are joined exactly when [(u, v)] is an edge of [G] that is not a
    self-loop. *)
Theorem collapse_graph_injective G cl :
  wf_graph G → total_clustering G cl →
  (∀ u v c, u ∈ nodes G → v ∈ nodes G → cl !! u = Some c → cl !! v = Some c → u = v) →
  ∃ Hg, collapse_graph G cl = Ok Hg ∧
    (∀ a b w, wg_weight Hg !! (a, b) = Some w → w = 1%Z) ∧
    (∀ u v a b, u ∈ nodes G → v ∈ nodes G → cl !! u = Some a → cl !! v = Some b →
                (a, b) ∈ edges (wg_graph Hg) ↔ (u, v) ∈ edges G ∧ u ≠ v).
Proof.
  intros HG Htot Hinj.
  destruct (collapse_graph_inv G cl (total_clustering_covered G cl HG Htot))
    as (Hg & Hrun & Hwf & Hn & He & Hw & Ht).
  assert (∀ a b e e', e ∈ onto cl a b (edges G) → e' ∈ onto cl a b (edges G) → e = e')
    as Hsame.
  { intros a b [u v] [u' v'] Hin Hin'.
    apply list_elem_of_filter in Hin as [[Hu Hv] Hin].
    apply list_elem_of_filter in Hin' as [[Hu' Hv'] Hin'].
    apply elem_of_edges in Hin; [|done]. apply elem_of_edges in Hin'; [|done].
    simpl in *. destruct HG as (_ & _ & Hc).
    destruct (Hc u v Hin), (Hc u' v' Hin').
    f_equal; eapply Hinj; done. }
  assert (∀ a b, length (onto cl a b (edges G)) ≤ 1) as Hone.
  { intros a b. assert (NoDup (onto cl a b (edges G))) as Hnd
      by (apply NoDup_filter; by apply NoDup_edges).
    destruct (onto cl a b (edges G)) as [|e [|e' l]] eqn:Ho; simpl; [lia..|].
    apply NoDup_cons in Hnd as [Hnot _]. destruct Hnot.
    rewrite (Hsame a b e e'); [apply list_elem_of_here|rewrite Ho..].
    - apply list_elem_of_here.
    - apply list_elem_of_further, list_elem_of_here. }
  exists Hg. split_and!; [done| |].
  - intros a b w. rewrite Hw. case_decide as Hd; [|done]. intros [= <-].
    destruct Hd as [_ Hne]. specialize (Hone a b).
    destruct (onto cl a b (edges G)); [done|]. simpl in *. lia.
  - intros u v a b Hu Hv Hau Hbv. rewrite elem_of_edges, He, Hw by done. split.
    + case_decide as Hd; [|by intros [? ?]]. intros _. destruct Hd as [Hab Hne].
      destruct (onto cl a b (edges G)) as [|[u' v'] l] eqn:Ho; [done|].
      assert ((u', v') ∈ onto cl a b (edges G)) as Hin
        by (rewrite Ho; apply list_elem_of_here).
      apply list_elem_of_filter in Hin as [[Hu' Hv'] Hin]. simpl in *.
      pose proof Hin as Hin'. apply elem_of_edges in Hin'; [|done].
      destruct HG as (_ & _ & Hc). destruct (Hc u' v' Hin').
      assert (u' = u) as -> by (by eapply Hinj).
      assert (v' = v) as -> by (by eapply Hinj).
      split; [done|]. intros ->. congruence.
    + intros [Hin Hne]. rewrite decide_True; [by eexists|]. split.
      * intros ->. apply Hne. by eapply Hinj.
      * intros Hnil.
        assert ((u, v) ∈ onto cl a b (edges G)) as Hon
          by (by apply list_elem_of_filter).
        rewrite Hnil in Hon. by apply elem_of_nil in Hon.
Qed.
End collapse_more.

Section random_collapse.
Context `{Countable K}.
Implicit Types (G : DiGraph K) (r : rng).

(** X18: a random clustering with [k >= 1] clusters can always be
    collapsed along: [collapse_graph] accepts it, and the collapsed graph is
    well formed, has at most [k] nodes, all in [0 .. k-1], no self-loop, and
    a total weight between 0 and the number of edges of [G]. *)
Theorem collapse_random_clustering G (k : Z) r :
  wf_graph G → (1 ≤ k)%Z →
  ∃ cl r' Hg,
    simple_random_clustering G k r = Ok (cl, r') ∧
    collapse_graph G cl = Ok Hg ∧
    wf_graph (wg_graph Hg) ∧ loop_free (wg_graph Hg) ∧
    (∀ c, c ∈ nodes (wg_graph Hg) → (0 ≤ c < k)%Z) ∧
    (Z.of_nat (length (nodes (wg_graph Hg))) ≤ k)%Z ∧
    (0 ≤ total_weight Hg ≤ Z.of_nat (length (edges G)))%Z.
Proof.
  intros HG Hk.
  destruct (assign_clusters_ok (range k) (nodes G) ∅ r (range_nonempty k Hk))
    as (cl & r' & Hrun & Hin & Hout).
  assert (total_clustering G cl) as Htot.
  { intros n Hn. destruct (Hin n Hn) as (c & -> & _). by eexists. }
  assert (∀ n c, cl !! n = Some c → c ∈ range k) as Hval.
  { intros n c Hn. destruct (decide (n ∈ nodes G)) as [Hyes|Hno].
    - destruct (Hin n Hyes) as (c' & Hc' & Hr). by rewrite Hc' in Hn; injection Hn as <-.
    - by rewrite (Hout n Hno), lookup_empty in Hn. }
  destruct (collapse_graph_inv G cl (total_clustering_covered G cl HG Htot))
    as (Hg & Hcol & Hwf & Hn & He & Hw & Ht).
  assert (∀ c, c ∈ nodes (wg_graph Hg) → c ∈ range k) as Hnodes.
  { intros c [n Hc]%Hn. by eapply Hval. }
  exists cl, r', Hg. split_and!; [done..| | | | |].
  - intros a b Hab%elem_of_edges; [|done]. apply He in Hab. rewrite Hw in Hab.
    case_decide as Hd; [by destruct Hd|by destruct Hab].
  - intros c Hc. by apply elem_of_range, Hnodes.
  - rewrite <- (Z.max_r 0 k), <- range_length by lia.
    apply inj_le, submseteq_length, NoDup_submseteq; [apply Hwf|done].
  - rewrite Ht. lia.
  - rewrite Ht. apply inj_le, length_filter.
Qed.
End random_collapse.
(** ** The shape of a generated graph *)

Section generator_shape.
Implicit Types (G : DiGraph Z) (r : rng) (cn : list Z).

Lemma add_node_present {K : Type} `{!EqDecision K} (H : DiGraph K) (n : K) :
  n ∈ nodes H → add_node H n = H.
Proof. intros Hn. unfold add_node, has_node. by rewrite bool_decide_eq_true_2 by done. Qed.

Lemma nodes_add_edge_present {K : Type} `{!EqDecision K} (H : DiGraph K) (u v : K) :
  u ∈ nodes H → v ∈ nodes H → nodes (add_edge H u v) = nodes H.
Proof.
  intros Hu Hv. unfold add_edge.
  rewrite (add_node_present H u Hu), (add_node_present H v Hv).
  by destruct (has_edge H u v).
Qed.

Lemma length_edge_log_add_edge {K : Type} `{!EqDecision K} (H : DiGraph K) (u v : K) :
  length (edge_log (add_edge H u v)) ≤ S (length (edge_log H)).
Proof.
  unfold add_edge. destruct (has_edge _ u v); simpl;
    rewrite ?length_app, !edge_log_add_node; simpl; lia.
Qed.

Lemma nodes_add_nodes_from_fresh {K : Type} `{!EqDecision K} (H : DiGraph K) (ns : list K) :
  NoDup (nodes H ++ ns) → nodes (add_nodes_from H ns) = nodes H ++ ns.
Proof.
  unfold add_nodes_from. revert H. induction ns as [|n ns IH]; intros H Hnd; simpl.
  { by rewrite app_nil_r. }
  assert (n ∉ nodes H) as Hn.
  { apply NoDup_app in Hnd as (_ & Hdisj & _). intros Hin.
    apply (Hdisj n Hin), list_elem_of_here. }
  assert (nodes (add_node H n) = nodes H ++ [n]) as Hnodes.
  { unfold add_node, has_node. by rewrite bool_decide_eq_false_2 by done. }
  rewrite IH; rewrite Hnodes, <- app_assoc; done.
Qed.

Lemma walk_lookup {K : Type} `{!EqDecision K} (H : DiGraph K) (p : list K) :
  (∀ i u v, p !! i = Some u → p !! S i = Some v → (u, v) ∈ edge_log H) → walk H p.
Proof.
  induction p as [|u [|v q] IH]; intros Hall; [done..|]. split.
  - by apply (Hall 0).
  - apply IH. intros i a b Ha Hb. by apply (Hall (S i)).
Qed.

Lemma walk_mono {K : Type} `{!EqDecision K} (H H' : DiGraph K) (p : list K) :
  (∀ e, e ∈ edge_log H → e ∈ edge_log H') → walk H p → walk H' p.
Proof.
  intros Hsub. induction p as [|u [|v q] IH]; [done..|].
  intros [He Hw]. split; [by apply Hsub|by apply IH].
Qed.

Lemma add_cycle_edges_trace G cn (L : Z) (positions : list Z) G' :
  Z.of_nat (length cn) = L → (1 ≤ L)%Z →
  (∀ i, i ∈ positions → (0 ≤ i < L)%Z) →
  (∀ x, x ∈ cn → x ∈ nodes G) →
  add_cycle_edges G cn L positions = Ok G' →
  nodes G' = nodes G ∧
  length (edge_log G') ≤ length (edge_log G) + length positions ∧
  (∀ e, e ∈ edge_log G → e ∈ edge_log G') ∧
  (∀ i, i ∈ positions →
        ∃ u v, cn !! Z.to_nat i = Some u ∧ cn !! Z.to_nat ((i + 1) `mod` L) = Some v ∧
               (u, v) ∈ edge_log G').
Proof.
  intros Hlen HL. revert G. induction positions as [|i rest IH]; intros G Hpos Hcn;
    cbn [add_cycle_edges].
  { intros [= <-]. split_and!; [done|simpl; lia|done|]. by intros i ?%elem_of_nil. }
  assert (0 ≤ i < L)%Z as Hi by (apply Hpos, list_elem_of_here).
  assert (0 ≤ (i + 1) `mod` L < L)%Z as Hi' by (apply Z.mod_pos_bound; lia).
  destruct (index_ok cn i) as (u & -> & Hu); [lia|].
  destruct (index_ok cn ((i + 1) `mod` L)) as (v & -> & Hv); [lia|].
  cbn [mbind result_mbind result_bind]. intros Hrun.
  assert (nodes (add_edge G u v) = nodes G) as Hnodes.
  { apply nodes_add_edge_present; apply Hcn; by eapply list_elem_of_lookup_2. }
  destruct (IH (add_edge G u v)) as (Hn & Hl & Hsub & Hedges); [| |done|].
  { intros j Hj. by apply Hpos, list_elem_of_further. }
  { intros x Hx. rewrite Hnodes. by apply Hcn. }
  split_and!.
  - by rewrite Hn.
  - pose proof (length_edge_log_add_edge G u v). simpl. lia.
  - intros e He. apply Hsub, edge_log_add_edge. by left.
  - intros j [->|Hj]%elem_of_cons; [|by apply Hedges].
    exists u, v. split_and!; [done..|]. apply Hsub, edge_log_add_edge. by right.
Qed.

Lemma embed_cycles_shape (n_nodes : Z) (count : nat) G r G' r' :
  nodes G = range n_nodes →
  embed_cycles n_nodes count G r = Ok (G', r') →
  nodes G' = range n_nodes ∧
  length (edge_log G') ≤ length (edge_log G) + 6 * count ∧
  (∀ e, e ∈ edge_log G → e ∈ edge_log G') ∧
  (0 < count →
   ∃ (n0 : Z) (rest : list Z),
     NoDup (n0 :: rest) ∧ 3 ≤ length (n0 :: rest) ≤ 6 ∧ walk G' ((n0 :: rest) ++ [n0])).
Proof.
  revert G r. induction count as [|c IH]; intros G r Hnodes; cbn [embed_cycles].
  { intros [= <- <-]. split_and!; [done|lia|done|lia]. }
  pose proof (randint_range 3 6 r) as Hr.
  destruct (randint 3 6 r) as [L r1]. simpl in Hr.
  unfold sample. case_decide as Hk; [|done].
  cbn [mbind result_mbind result_bind].
  pose proof (draw_length (Z.to_nat L) (range n_nodes) r1) as Hlen.
  pose proof (draw_sublist (Z.to_nat L) (range n_nodes) r1) as [Hnd Hsub];
    [apply NoDup_seqZ|].
  destruct (draw (Z.to_nat L) (range n_nodes) r1) as [cn r2]. cbn [fst snd] in *.
  assert (Z.of_nat (length cn) = L) as HcnL by (rewrite Hlen; lia).
  destruct (add_cycle_edges G cn L (range L)) as [G1|e] eqn:Hadd; [|done].
  cbn [mbind result_mbind result_bind]. intros Hrun.
  destruct (add_cycle_edges_trace G cn L (range L) G1) as (Hn1 & Hl1 & Hsub1 & Hedges);
    [done|lia| | |done|].
  { intros i Hi%elem_of_range. lia. }
  { intros x Hx. rewrite Hnodes. by apply Hsub. }
  destruct (IH G1 r2) as (Hn' & Hl' & Hsub' & _); [by rewrite Hn1|done|].
  split_and!; [done| | |].
  - pose proof (range_length L) as HrL. lia.
  - intros e0 He0. by apply Hsub', Hsub1.
  - intros _. destruct cn as [|n0 rest]; [cbn [length] in *; lia|].
    exists n0, rest. split_and!; [done|cbn [length] in *; lia..|].
    apply (walk_mono G1); [done|]. apply walk_lookup. intros i u v Hu Hv.
    assert (S i < length ((n0 :: rest) ++ [n0])) as Hi by by eapply lookup_lt_Some.
    rewrite length_app in Hi. simpl in Hi.
    destruct (Hedges (Z.of_nat i)) as (u' & v' & Hu' & Hv' & He).
    { apply elem_of_range. simpl in *. lia. }
    rewrite Nat2Z.id in Hu'.
    rewrite lookup_app_l in Hu by (simpl; lia). rewrite Hu in Hu'. injection Hu' as <-.
    destruct (decide (S i < length (n0 :: rest))) as [Hlt|Hge].
    + rewrite lookup_app_l in Hv by done.
      rewrite Z.mod_small in Hv' by (simpl in *; lia).
      replace (Z.to_nat (Z.of_nat i + 1)) with (S i) in Hv' by lia.
      rewrite Hv in Hv'. by injection Hv' as <-.
    + assert (S i = length (n0 :: rest)) as Heq by (simpl in *; lia).
      rewrite Heq in Hv. rewrite list_lookup_middle in Hv by done. injection Hv as <-.
      replace (Z.of_nat i + 1)%Z with L in Hv' by (simpl in *; lia).
      rewrite Z.mod_same in Hv' by lia. simpl in Hv'. by injection Hv' as <-.
Qed.

Lemma initial_nodes (n_nodes : Z) :
  nodes (add_nodes_from (@empty_graph Z) (range n_nodes)) = range n_nodes.
Proof. rewrite nodes_add_nodes_from_fresh; [done|]. simpl. apply NoDup_seqZ. Qed.

Lemma cycle_has_three_edges (G : DiGraph Z) (n0 : Z) (rest : list Z) :
  NoDup (n0 :: rest) → 3 ≤ length (n0 :: rest) → walk G ((n0 :: rest) ++ [n0]) →
  3 ≤ length (edge_log G).
Proof.
  intros Hnd Hlen Hw.
  destruct rest as [|n1 [|n2 rest]]; [simpl in Hlen; lia..|].
  simpl in Hw. destruct Hw as (H01 & H12 & Hw).
  assert (∃ x, (n2, x) ∈ edge_log G) as [x H2x].
  { destruct rest as [|n3 rest]; simpl in Hw; [exists n0|exists n3]; by destruct Hw. }
  change 3 with (length [(n0, n1); (n1, n2); (n2, x)]).
  apply submseteq_length, NoDup_submseteq.
  - apply (NoDup_fmap_1 fst). simpl.
    change (n0 :: n1 :: n2 :: rest) with ([n0; n1; n2] ++ rest) in Hnd.
    by apply NoDup_app in Hnd as [? _].
  - intros e [->|[->|[->|?%elem_of_nil]%elem_of_cons]%elem_of_cons]%elem_of_cons; done.
Qed.

Lemma wf_build_toy_brain (n_nodes n_cycles : Z) (r r' : rng) (G : DiGraph Z) :
  build_toy_brain n_nodes n_cycles r = Ok (G, r') → wf_graph G.
Proof.
  unfold build_toy_brain. intros Hrun.
  destruct (embed_cycles_inv _ _ _ _ _ _ Hrun) as (HG & _); [| |done].
  - apply wf_initial_nodes.
  - intros u v. rewrite edge_log_add_nodes_from. simpl. by intros ?%elem_of_nil.
Qed.

(** X19: a generated graph has the nodes [0 .. n_nodes - 1] in this order
    and no other, and at most 6 edges for each embedded cycle; when at least
    one cycle is embedded it has at least 3 edges. *)
Theorem build_toy_brain_shape (n_nodes n_cycles : Z) (r r' : rng) (G : DiGraph Z) :
  build_toy_brain n_nodes n_cycles r = Ok (G, r') →
  nodes G = range n_nodes ∧
  (Z.of_nat (length (edges G)) ≤ 6 * Z.max 0 n_cycles)%Z ∧
  ((0 < n_cycles)%Z → 3 ≤ length (edges G)).
Proof.
  intros Hrun. pose proof (wf_build_toy_brain _ _ _ _ _ Hrun) as HG.
  unfold build_toy_brain in Hrun.
  destruct (embed_cycles_shape _ _ _ _ _ _ (initial_nodes n_nodes) Hrun)
    as (Hn & Hl & _ & Hcyc).
  rewrite edge_log_add_nodes_from in Hl. simpl in Hl.
  rewrite (edges_Permutation G HG). split_and!; [done|lia|].
  intros Hc. destruct Hcyc as (n0 & rest & Hnd & [Hlen _] & Hw); [lia|].
  by eapply cycle_has_three_edges.
Qed.

(** X20: the enumerator finds what the generator embeds: with a bound of
    at least 6, the cycles found in a graph generated with at least one
    cycle include one of 3 to 6 edges. *)
Theorem generated_cycle_found (n_nodes n_cycles max_length : Z) (r r' : rng)
    (G : DiGraph Z) :
  build_toy_brain n_nodes n_cycles r = Ok (G, r') →
  (0 < n_cycles)%Z → (6 ≤ max_length)%Z →
  ∃ cycles c, find_all_cycles G max_length = Some cycles ∧ c ∈ cycles ∧
              (3 ≤ edge_count c ≤ 6)%Z.
Proof.
  unfold build_toy_brain. intros Hrun Hc Hmax.
  destruct (embed_cycles_inv _ _ _ _ _ _ Hrun) as (HG & _ & _ & _).
  { apply wf_initial_nodes. }
  { intros u v. rewrite edge_log_add_nodes_from. simpl. by intros ?%elem_of_nil. }
  destruct (embed_cycles_shape _ _ _ _ _ _ (initial_nodes n_nodes) Hrun)
    as (_ & _ & _ & Hcyc).
  destruct Hcyc as (n0 & rest & Hnd & Hlen & Hw); [lia|].
  destruct (search_from_sound G max_length (nodes G) []) as (found & Hfound & _);
    [apply Forall_nil_2|].
  destruct (last_is_Some (n0 :: rest)) as [_ [lastq Hlq]]; [done|].
  assert ((lastq, n0) ∈ edge_log G) as He by (by eapply walk_app_edge).
  exists found, ((n0 :: rest) ++ [n0]). split_and!; [done| | |].
  - eapply (search_from_complete G max_length (nodes G) [] found n0 (n0 :: rest) lastq);
      try done.
    + by eapply walk_app_l.
    + simpl in *. lia.
    + simpl in *. lia.
    + destruct HG as (_ & _ & Hcl). by destruct (Hcl lastq n0 He).
  - unfold edge_count. rewrite length_app. simpl in *. lia.
  - unfold edge_count. rewrite length_app. simpl in *. lia.
Qed.
End generator_shape.
(** ** What the motif table holds *)

Section motif_exact.
Context `{Countable K}.
Implicit Types (G : DiGraph K) (path p : list K) (queue : list (K * list K))
  (m : gmap (list K) Z).

Lemma record_successors_skip path (nbrs : list K) m queue :
  ¬ length path + 1 ≤ 3 → record_successors path nbrs m queue = (m, queue).
Proof.
  intros Hlong. revert m queue. induction nbrs as [|x nbrs IH]; intros m queue;
    cbn [record_successors]; [done|].
  cbv zeta. rewrite decide_False; [apply IH|]. rewrite length_app. simpl. lia.
Qed.

Lemma record_successors_short path (nbrs : list K) m queue :
  length path + 1 ≤ 3 → NoDup nbrs →
  (∀ x, x ∈ nbrs → m !! (path ++ [x]) = None) →
  (∀ p, (record_successors path nbrs m queue).1 !! p =
        if decide (p ∈ (λ x, path ++ [x]) <$> nbrs) then Some 1%Z else m !! p) ∧
  (record_successors path nbrs m queue).2
  = reverse ((λ x, (x, path ++ [x])) <$> nbrs) ++ queue.
Proof.
  intros Hshort. revert m queue. induction nbrs as [|x nbrs IH]; intros m queue Hnd Hnew;
    cbn [record_successors].
  { split; [|done]. intros p. rewrite decide_False; [done|]. by intros ?%elem_of_nil. }
  apply NoDup_cons in Hnd as [Hx Hnd].
  cbv zeta. rewrite decide_True by (rewrite length_app; simpl; lia).
  rewrite (Hnew x) by apply list_elem_of_here.
  change (default 0%Z None + 1)%Z with 1%Z.
  destruct (IH (<[path ++ [x]:=1%Z]> m) ((x, path ++ [x]) :: queue) Hnd) as [IHm IHq].
  { intros y Hy. rewrite lookup_insert_ne; [by apply Hnew, list_elem_of_further|].
    intros [= ->]%app_inv_head. done. }
  split.
  - intros p. rewrite IHm, fmap_cons.
    destruct (decide (p ∈ (λ x0, path ++ [x0]) <$> nbrs)) as [Hin|Hnot].
    + rewrite decide_True; [done|]. by apply list_elem_of_further.
    + destruct (decide (p = path ++ [x])) as [->|Hne].
      * rewrite lookup_insert_eq, decide_True; [done|]. apply list_elem_of_here.
      * rewrite lookup_insert_ne by done. rewrite decide_False; [done|].
        by intros [?|?]%elem_of_cons.
  - rewrite IHq, fmap_cons, reverse_cons, <- app_assoc. done.
Qed.

Lemma prefix_snoc_inv (l path : list K) (x : K) :
  l `prefix_of` path ++ [x] → l = path ++ [x] ∨ l `prefix_of` path.
Proof.
  intros [k Hk]. destruct k as [|y k _] using rev_ind.
  - left. by rewrite app_nil_r in Hk.
  - right. rewrite app_assoc in Hk. apply app_inj_tail in Hk as [-> _]. by exists k.
Qed.

Lemma strict_prefix_snoc_inv (l path : list K) (x : K) :
  strict_prefix l (path ++ [x]) → l `prefix_of` path.
Proof.
  intros (z & r & Hk).
  destruct (prefix_snoc_inv l path x) as [->|?]; [by exists (z :: r)| |done].
  apply (f_equal length) in Hk. rewrite !length_app in Hk. simpl in Hk. lia.
Qed.

Lemma sweep_inv_drop G (started : list K) m (f : K * list K) queue :
  sweep_inv G started m (f :: queue) →
  (∀ p, short_walk G p → ¬ strict_prefix f.2 p) →
  sweep_inv G started m queue.
Proof.
  intros [Hk Hf Hnd Hap Hpe] Hdead. split.
  - done.
  - intros g Hg. by apply Hf, list_elem_of_further.
  - by apply NoDup_cons in Hnd as [_ ?].
  - intros g g' Hg Hg'. apply Hap; by apply list_elem_of_further.
  - intros p a Hp Hh Ha. destruct (Hpe p a Hp Hh Ha) as [?|(g & Hg & Hpre)]; [by left|].
    apply elem_of_cons in Hg as [->|Hg]; [by destruct (Hdead p Hp)|].
    right. by exists g.
Qed.

Lemma sweep_inv_step G (started : list K) m (cur : K) path queue :
  wf_graph G →
  sweep_inv G started m ((cur, path) :: queue) →
  sweep_inv G started (record_successors path (successors G cur) m queue).1
    (record_successors path (successors G cur) m queue).2.
Proof.
  intros HG Hinv.
  destruct (decide (length path + 1 ≤ 3)) as [Hshort|Hlong].
  2:{ rewrite record_successors_skip by done. simpl.
      apply (sweep_inv_drop G started m (cur, path)); [done|].
      intros p [_ Hlen] (x & r & ->). simpl in Hlen.
      rewrite length_app in Hlen. simpl in Hlen. lia. }
  pose proof Hinv as [Hk Hf Hnd Hap Hpe].
  destruct (Hf (cur, path)) as ([Hlast Hwalk] & Hlen & (a0 & Hhead & Ha0) & Hfresh);
    [apply list_elem_of_here|]. simpl in *.
  apply NoDup_cons in Hnd as [Hpopped Hnd].
  assert (∀ g, g ∈ queue → ¬ g.2 `prefix_of` path) as Hnopre.
  { intros g Hg Hpre. apply Hpopped.
    rewrite <- (Hap g (cur, path)); [done|by apply list_elem_of_further| |done].
    apply list_elem_of_here. }
  assert (∀ g, g ∈ queue → ¬ path `prefix_of` g.2) as Hnoext.
  { intros g Hg Hpre. apply Hpopped.
    rewrite (Hap (cur, path) g); [done| |by apply list_elem_of_further|done].
    apply list_elem_of_here. }
  destruct (record_successors_short path (successors G cur) m queue) as [Hm' Hq'];
    [done|apply NoDup_successors, HG| |].
  { intros x _. apply eq_None_not_Some. intros Hsome.
    apply (Hfresh _ Hsome). by exists x, []. }
  rewrite Hq'. set (m' := (record_successors path (successors G cur) m queue).1) in *.
  assert (∀ g, g ∈ reverse ((λ x, (x, path ++ [x])) <$> successors G cur) ↔
               ∃ x, g = (x, path ++ [x]) ∧ (cur, x) ∈ edge_log G) as Hnewf.
  { intros g. rewrite elem_of_reverse, list_elem_of_fmap.
    split; intros (x & -> & Hx); exists x; (split; [done|]); by apply elem_of_successors. }
  assert (∀ p, p ∈ (λ x, path ++ [x]) <$> successors G cur ↔
               ∃ x, p = path ++ [x] ∧ (cur, x) ∈ edge_log G) as Hnewk.
  { intros p. rewrite list_elem_of_fmap.
    split; intros (x & -> & Hx); exists x; (split; [done|]); by apply elem_of_successors. }
  split.
  - (* keys *)
    intros p c. rewrite Hm'. case_decide as Hd; [|apply Hk].
    apply Hnewk in Hd as (x & -> & Hx). intros [= <-]. split_and!; [done| |].
    + split; [by eapply walk_snoc|]. rewrite length_app. simpl. lia.
    + exists a0. split; [by apply head_snoc|done].
  - (* frames *)
    intros g [Hg|Hg]%elem_of_app.
    + apply Hnewf in Hg as (x & -> & Hx). simpl. split_and!.
      * split; simpl; [by rewrite last_snoc|by eapply walk_snoc].
      * rewrite length_app. simpl. lia.
      * exists a0. split; [by apply head_snoc|done].
      * intros p. rewrite Hm'. case_decide as Hd.
        -- apply Hnewk in Hd as (y & -> & _). intros _ (z & r & Heq).
           apply (f_equal length) in Heq. rewrite !length_app in Heq. simpl in Heq. lia.
        -- intros Hsome (z & r & ->). apply (Hfresh _ Hsome).
           exists x, (z :: r). by rewrite <- app_assoc.
    + destruct (Hf g) as (? & ? & ? & Hfg); [by apply list_elem_of_further|].
      split_and!; [done..|]. intros p. rewrite Hm'. case_decide as Hd; [|apply Hfg].
      apply Hnewk in Hd as (x & -> & _). intros _ Hpre%strict_prefix_snoc_inv.
      by apply (Hnopre g).
  - (* no frame twice *)
    apply NoDup_app. split_and!; [| |done].
    + rewrite reverse_Permutation. apply NoDup_fmap_2; [|apply NoDup_successors, HG].
      by intros x y [= ->].
    + intros g (x & -> & _)%Hnewf Hg. apply (Hnoext _ Hg). simpl. by exists [x].
  - (* no frame continues another *)
    intros g g' [Hg|Hg]%elem_of_app [Hg'|Hg']%elem_of_app Hpre.
    + apply Hnewf in Hg as (x & -> & _). apply Hnewf in Hg' as (y & -> & _).
      simpl in Hpre. apply prefix_length_eq in Hpre as [= ->]%app_inv_head; [done|].
      rewrite !length_app. simpl. lia.
    + apply Hnewf in Hg as (x & -> & _). simpl in Hpre.
      destruct (Hnoext g' Hg'). etrans; [|exact Hpre]. by exists [x].
    + apply Hnewf in Hg' as (y & -> & _). simpl in Hpre.
      apply prefix_snoc_inv in Hpre as [Heq|Hpre]; [|by destruct (Hnopre g Hg)].
      destruct (Hnoext g Hg). rewrite Heq. by exists [y].
    + apply Hap; [by apply list_elem_of_further..|done].
  - (* nothing is lost *)
    intros p a Hp Hh Ha.
    destruct (Hpe p a Hp Hh Ha) as [Hsome|(g & Hg & Hpre)].
    { left. rewrite Hm'. case_decide; [by eexists|done]. }
    apply elem_of_cons in Hg as [->|Hg].
    2:{ right. exists g. split; [|done]. apply elem_of_app. by right. }
    simpl in Hpre. destruct Hpre as (x & r & ->).
    assert ((cur, x) ∈ edge_log G) as Hx by (destruct Hp; by eapply walk_app_edge).
    destruct r as [|y r].
    + left. rewrite Hm', decide_True; [by eexists|]. apply Hnewk. by exists x.
    + right. exists (x, path ++ [x]). split.
      * apply elem_of_app. left. apply Hnewf. by exists x.
      * exists y, r. simpl. by rewrite <- app_assoc.
Qed.

Lemma pcn_loop_inv (fuel : nat) G (started : list K) queue m (m' : gmap (list K) Z) :
  wf_graph G →
  pcn_loop fuel G queue m = Some m' →
  sweep_inv G started m queue → sweep_inv G started m' [].
Proof.
  intros HG. revert queue m. induction fuel as [|fuel IH]; intros queue m; [done|].
  cbn [pcn_loop]. destruct queue as [|[cur path] queue]; [by intros [= ->]|].
  case_decide as Hlong.
  - intros Hrun Hinv. apply (IH _ _ Hrun).
    apply (sweep_inv_drop G started m (cur, path)); [done|].
    intros p [_ Hlen] (x & r & ->). simpl in *. rewrite length_app in Hlen. simpl in Hlen. lia.
  - pose proof (sweep_inv_step G started m cur path queue HG) as Hstep.
    destruct (record_successors _ _ _ _) as [m1 q1]. simpl in Hstep.
    intros Hrun Hinv. apply (IH _ _ Hrun). by apply Hstep.
Qed.

Lemma sweep_inv_start G (started : list K) m (node : K) :
  node ∉ started →
  sweep_inv G started m [] → sweep_inv G (node :: started) m [(node, [node])].
Proof.
  intros Hnew [Hk _ _ _ Hpe]. split.
  - intros p c Hp. destruct (Hk p c Hp) as (? & ? & a & ? & ?).
    split_and!; [done..|]. exists a. split; [done|]. by apply list_elem_of_further.
  - intros f ->%list_elem_of_singleton. simpl. split_and!; [by split|lia| |].
    + exists node. split; [done|]. apply list_elem_of_here.
    + intros p [c Hp] (x & r & ->). destruct (Hk _ c Hp) as (_ & _ & a & [= <-] & Ha).
      done.
  - apply NoDup_singleton.
  - by intros f g ->%list_elem_of_singleton ->%list_elem_of_singleton.
  - intros p a Hp Hh [->|Ha]%elem_of_cons.
    + right. exists (node, [node]). split; [apply list_elem_of_here|]. simpl.
      destruct Hp as [_ Hlen]. destruct p as [|u [|v p]]; [simpl in Hlen; lia..|].
      injection Hh as ->. by exists v, p.
    + destruct (Hpe p a Hp Hh Ha) as [?|(f & Hf & _)]; [by left|].
      by apply elem_of_nil in Hf.
Qed.

Lemma sweep_from_inv G (starts started : list K) m (m' : gmap (list K) Z) :
  wf_graph G → NoDup starts → (∀ x, x ∈ starts → x ∉ started) →
  sweep_from G starts m = Some m' →
  sweep_inv G started m [] →
  ∃ started', (∀ x, x ∈ started' ↔ x ∈ starts ∨ x ∈ started) ∧
              sweep_inv G started' m' [].
Proof.
  intros HG. revert started m. induction starts as [|node starts IH];
    intros started m Hnd Hnew; cbn [sweep_from].
  { intros [= ->] Hinv. exists started. split; [|done]. intros x.
    rewrite elem_of_nil. tauto. }
  apply NoDup_cons in Hnd as [Hnode Hnd].
  destruct (pcn_loop (pcn_fuel G) G [(node, [node])] m) as [m1|] eqn:Hloop; [|done].
  simpl. intros Hrun Hinv.
  destruct (IH (node :: started) m1 Hnd) as (started' & Hmem & Hinv'); [|done| |].
  - intros x Hx [->|Hin]%elem_of_cons; [done|].
    by apply (Hnew x (list_elem_of_further _ _ _ Hx)).
  - eapply pcn_loop_inv; [done..|]. apply sweep_inv_start; [|done].
    apply Hnew, list_elem_of_here.
  - exists started'. split; [|done]. intros x. rewrite Hmem, !elem_of_cons. tauto.
Qed.

(** X21: on a well-formed graph the motif table holds exactly the walks of
    one or two edges (node sequences of length 2 and 3), and every count in
    it is 1: no sequence is produced twice in a sweep. *)
Theorem pcn_analysis_exact G :
  wf_graph G →
  ∃ m, pcn_analysis G = Some m ∧
       (∀ p, is_Some (m !! p) ↔ short_walk G p) ∧
       (∀ p c, m !! p = Some c → c = 1%Z).
Proof.
  intros HG. destruct (pcn_analysis_short G) as (m & Hrun & Hshort).
  exists m. split; [done|].
  destruct (sweep_from_inv G (nodes G) [] ∅ m HG) as (started & Hmem & [Hk _ _ _ Hpe]).
  - apply HG.
  - by intros x _ ?%elem_of_nil.
  - done.
  - split; [by intros p c; rewrite lookup_empty|by intros f ?%elem_of_nil|
            apply NoDup_nil_2|by intros f g ?%elem_of_nil|by intros p a _ _ ?%elem_of_nil].
  - split.
    + intros p. split; [apply Hshort|]. intros Hp.
      destruct p as [|a p]; [destruct Hp as [_ Hlen]; simpl in Hlen; lia|].
      destruct (Hpe (a :: p) a Hp eq_refl) as [?|(f & Hf & _)]; [|done|].
      * apply Hmem. left. destruct Hp as [Hw Hlen].
        destruct p as [|b p]; [simpl in Hlen; lia|]. destruct Hw as [Hab _].
        destruct HG as (_ & _ & Hc). by destruct (Hc a b Hab).
      * by apply elem_of_nil in Hf.
    + intros p c Hp. by destruct (Hk p c Hp).
Qed.
End motif_exact.
(** ** Cycles against the size of the graph, and the demonstration run *)

Section cycle_size.
Context {K : Type} `{!EqDecision K}.

Lemma walk_starts_in_nodes (G : DiGraph K) (p : list K) (x : K) :
  wf_graph G → walk G (p ++ [x]) → ∀ n, n ∈ p → n ∈ nodes G.
Proof.
  intros (_ & _ & Hc). induction p as [|u p IH]; intros Hw n Hn;
    [by apply elem_of_nil in Hn|].
  assert (u ∈ nodes G) as Hu.
  { destruct p as [|v p]; simpl in Hw; destruct Hw as [He _]; by destruct (Hc _ _ He). }
  apply elem_of_cons in Hn as [->|Hn]; [done|].
  apply IH; [|done]. by eapply walk_tail.
Qed.

(** X22: whatever the bound, a cycle the enumerator returns has at most as
    many edges as the graph has nodes. *)
Theorem find_all_cycles_at_most_nodes (G : DiGraph K) (max_length : Z)
    (cycles : list (list K)) (c : list K) :
  wf_graph G →
  find_all_cycles G max_length = Some cycles → c ∈ cycles →
  (edge_count c ≤ Z.of_nat (length (nodes G)))%Z.
Proof.
  intros HG Hrun Hc.
  destruct (search_from_sound G max_length (nodes G) []) as (found & Hf & Hall);
    [apply Forall_nil_2|].
  unfold find_all_cycles in Hrun. rewrite Hrun in Hf. injection Hf as <-.
  pose proof (proj1 (Forall_forall _ _) Hall c Hc) as Hsc.
  apply simple_cycle_split in Hsc as (n & q & lastq & -> & _ & Hnd & Hw & Hl & He & _).
  unfold edge_count. rewrite length_app. simpl.
  assert (length q ≤ length (nodes G)); [|lia].
  apply submseteq_length, NoDup_submseteq; [done|].
  apply (walk_starts_in_nodes G q n HG). by eapply walk_snoc.
Qed.
End cycle_size.

(** X23: the demonstration run of simulateCycles.py, whatever the random
    draws: the graph is built and the run prints 20 as the number of nodes
    and a number of edges between 3 and 24; then the call of
    [activate_cycles] raises [TypeError], and the list of active nodes is
    never printed. *)
Theorem main_prints_then_raises (r : rng) :
  ∃ n_edges : Z,
    SimulateCycles.main r = ([20%Z; n_edges], Raise TypeError) ∧
    (3 ≤ n_edges ≤ 24)%Z.
Proof.
  unfold SimulateCycles.main.
  destruct (embed_cycles_large 20 (Z.to_nat 4) (add_nodes_from empty_graph (range 20)) r)
    as (G & r1 & Hbuild); [lia|].
  fold (build_toy_brain 20 4 r) in Hbuild. rewrite Hbuild.
  rewrite (activate_cycles_type_error G 5 1 r1).
  pose proof (wf_build_toy_brain _ _ _ _ _ Hbuild) as HG.
  pose proof Hbuild as Hshape. unfold build_toy_brain in Hshape.
  apply (embed_cycles_shape _ _ _ _ _ _ (initial_nodes 20)) in Hshape
    as (Hnodes & Hmax & _ & Hcyc).
  rewrite edge_log_add_nodes_from in Hmax. simpl in Hmax.
  destruct Hcyc as (n0 & rest & Hnd & [Hlen3 _] & Hw); [lia|].
  pose proof (cycle_has_three_edges G n0 rest Hnd Hlen3 Hw) as Hmin.
  rewrite <- (edges_Permutation G HG) in Hmax, Hmin.
  assert (length (nodes G) = 20) as ->.
  { rewrite Hnodes. pose proof (range_length 20). lia. }
  eexists. split; [done|]. lia.
Qed.

Lemma motif_count_at_least_edges (G : DiGraph Z) (m : gmap (list Z) Z) :
  wf_graph G → (∀ p, short_walk G p → is_Some (m !! p)) →
  length (edges G) ≤ size m.
Proof.
  intros HG Hkeys. rewrite (edges_Permutation G HG), <- size_dom.
  set (key := λ e : Z * Z, [e.1; e.2]).
  rewrite <- (length_fmap key).
  rewrite <- (size_list_to_set (C := gset (list Z))).
  - apply subseteq_size. intros p [[u v] [-> He]]%elem_of_list_to_set%list_elem_of_fmap.
    apply elem_of_dom, Hkeys. split; [by split|simpl; lia].
  - apply NoDup_fmap_2; [|apply HG]. by intros [u v] [u' v'] [= -> ->].
Qed.

(** X24: the demonstration run of pcnImplementation.py never raises,
    whatever the random draws: the graph is generated, clustered, collapsed
    and searched, and at least 3 distinct motifs of the original graph are
    reported. *)
Theorem pcn_main_never_raises (r : rng) :
  ∃ (original_cycles collapsed_cycles original_motifs collapsed_motifs : Z) (r' : rng),
    PcnImplementation.main r
    = Some (Ok ((original_cycles, collapsed_cycles, original_motifs, collapsed_motifs), r')) ∧
    (3 ≤ original_motifs)%Z.
Proof.
  unfold PcnImplementation.main.
  destruct (embed_cycles_large 12 (Z.to_nat 3) (add_nodes_from empty_graph (range 12)) r)
    as (G & r1 & Hbuild); [lia|].
  fold (build_toy_brain 12 3 r) in Hbuild. rewrite Hbuild.
  pose proof (wf_build_toy_brain _ _ _ _ _ Hbuild) as HG.
  pose proof Hbuild as Hshape. unfold build_toy_brain in Hshape.
  apply (embed_cycles_shape _ _ _ _ _ _ (initial_nodes 12)) in Hshape
    as (_ & _ & _ & Hcyc).
  destruct Hcyc as (n0 & rest & Hnd & [Hlen3 _] & Hw); [lia|].
  pose proof (cycle_has_three_edges G n0 rest Hnd Hlen3 Hw) as Hmin.
  rewrite <- (edges_Permutation G HG) in Hmin.
  destruct (search_from_sound G 5 (nodes G) []) as (cycles & Hcycles & _);
    [apply Forall_nil_2|].
  fold (find_all_cycles G 5) in Hcycles. rewrite Hcycles. simpl.
  destruct (assign_clusters_ok (range 3) (nodes G) ∅ r1 (range_nonempty 3 ltac:(lia)))
    as (cl & r2 & Hcl & Hin & _).
  fold (simple_random_clustering G 3 r1) in Hcl. rewrite Hcl.
  assert (total_clustering G cl) as Htot.
  { intros n Hn. destruct (Hin n Hn) as (c & -> & _). by eexists. }
  destruct (collapse_graph_inv G cl (total_clustering_covered G cl HG Htot))
    as (Hg & -> & Hwf & _).
  destruct (search_from_sound (wg_graph Hg) 5 (nodes (wg_graph Hg)) [])
    as (cycles' & Hcycles' & _); [apply Forall_nil_2|].
  fold (find_all_cycles (wg_graph Hg) 5) in Hcycles'. rewrite Hcycles'. simpl.
  destruct (sweep_from_spec G (nodes G) ∅) as (m & Hm & _).
  { intros p. rewrite lookup_empty. by intros [? ?]. }
  fold (pcn_analysis G) in Hm. rewrite Hm. simpl.
  destruct (sweep_from_inv G (nodes G) [] ∅ m HG) as (started & Hmem & [_ _ _ _ Hpe]);
    [apply HG|by intros x _ ?%elem_of_nil|done| |].
  { split; [by intros p c; rewrite lookup_empty|by intros f ?%elem_of_nil|
            apply NoDup_nil_2|by intros f g ?%elem_of_nil|by intros p a _ _ ?%elem_of_nil]. }
  destruct (sweep_from_spec (wg_graph Hg) (nodes (wg_graph Hg)) ∅) as (m' & Hm' & _).
  { intros p. rewrite lookup_empty. by intros [? ?]. }
  fold (pcn_analysis (wg_graph Hg)) in Hm'. rewrite Hm'. simpl.
  eexists _, _, _, _, _. split; [done|].
  assert (length (edges G) ≤ size m); [|lia].
  apply motif_count_at_least_edges; [done|]. intros p Hp.
  destruct p as [|a p]; [destruct Hp as [_ Hlen]; simpl in Hlen; lia|].
  destruct (Hpe (a :: p) a Hp eq_refl) as [?|(f & Hf & _)]; [|done|].
  - apply Hmem. left. destruct Hp as [Hwp Hlen].
    destruct p as [|b p]; [simpl in Hlen; lia|]. destruct Hwp as [Hab _].
    destruct HG as (_ & _ & Hc). by destruct (Hc a b Hab).
  - by apply elem_of_nil in Hf.
Qed.
(** ** The further properties on sample inputs *)

Lemma all_inactive_lookup `{Countable K} (G : DiGraph K) (k : K) :
  all_inactive G !! k = if decide (k ∈ nodes G) then Some false else None.
Proof. unfold all_inactive. by rewrite lookup_foldl_insert, lookup_empty. Qed.

Lemma one_cluster_all : ∀ n, n ∈ nodes triangle → one_cluster !! n = Some "A".
Proof.
  intros n Hn. change (nodes triangle) with [0; 1; 2]%Z in Hn.
  repeat (apply elem_of_cons in Hn as [->|Hn]; [done|]). by apply elem_of_nil in Hn.
Qed.

Lemma own_clusters_total : total_clustering triangle own_clusters.
Proof.
  intros n Hn. change (nodes triangle) with [0; 1; 2]%Z in Hn.
  repeat (apply elem_of_cons in Hn as [->|Hn]; [by eexists|]).
  by apply elem_of_nil in Hn.
Qed.

Lemma own_clusters_apart (u v c : Z) :
  u ∈ nodes triangle → v ∈ nodes triangle →
  own_clusters !! u = Some c → own_clusters !! v = Some c → u = v.
Proof.
  intros Hu Hv Hcu Hcv. change (nodes triangle) with [0; 1; 2]%Z in Hu, Hv.
  rewrite !elem_of_cons, elem_of_nil in Hu, Hv.
  destruct Hu as [->|[->|[->|[]]]], Hv as [->|[->|[->|[]]]];
    vm_compute in Hcu, Hcv; congruence.
Qed.

Lemma seeded_run_count_bounds_witness :
  ∃ final : gmap Z bool,
    run_steps chain4 1 (Z.to_nat 3) (seed (all_inactive chain4) [2%Z]) = Ok final ∧
    (∀ n, is_Some (final !! n) ↔ n ∈ nodes chain4) ∧
    (Z.of_nat (length [2%Z]) ≤ count_active_nodes final
     ≤ Z.of_nat (length (nodes chain4)))%Z.
Proof.
  apply (seeded_run_count_bounds chain4 3 1 [2%Z]).
  - apply wf_chain4.
  - apply NoDup_singleton.
  - intros n ->%list_elem_of_singleton. change (nodes chain4) with [0; 1; 2; 3]%Z.
    set_solver.
Defined.

Lemma count_active_nodes_monotone_witness :
  (count_active_nodes zero_one_active ≤ count_active_nodes all_active)%Z.
Proof.
  apply (count_active_nodes_monotone triangle 1 (only_zero triangle) 1 2).
  - lia.
  - vm_compute. reflexivity.
  - vm_compute. reflexivity.
Defined.

Lemma activation_reaches_witness :
  all_active !! 2%Z = Some true ↔ reached_within triangle (only_zero triangle) 2 2%Z.
Proof.
  apply (activation_reaches triangle (only_zero triangle) 2 all_active).
  - apply wf_triangle.
  - apply covers_seed.
  - vm_compute. reflexivity.
Defined.

Lemma low_in_degree_unchanged_witness : one_to_three !! 0%Z = only_one !! 0%Z.
Proof.
  apply (low_in_degree_unchanged chain4 1 only_one 2 one_to_three 0%Z).
  - apply wf_chain4.
  - apply covers_seed.
  - vm_compute. reflexivity.
  - vm_compute. reflexivity.
Defined.

Lemma no_spontaneous_activation_witness :
  run_steps triangle 1 3 (all_inactive triangle) = Ok (all_inactive triangle).
Proof.
  apply (no_spontaneous_activation triangle 1 (all_inactive triangle) 3).
  - apply wf_triangle.
  - apply (covers_seed triangle []).
  - lia.
  - intros k. rewrite all_inactive_lookup. by case_decide.
Defined.

Lemma activation_settles_witness :
  ∃ s, run_steps triangle 1 (length (nodes triangle)) (only_zero triangle) = Ok s ∧
       step triangle 1 s = Ok s ∧
       run_steps triangle 1 (length (nodes triangle) + 2) (only_zero triangle) = Ok s.
Proof.
  apply (activation_settles triangle 1 (only_zero triangle) 2).
  - apply wf_triangle.
  - apply covers_seed.
Defined.

Lemma find_all_cycles_complete_witness :
  ∃ cycles, find_all_cycles triangle 3 = Some cycles ∧
            ∀ c, c ∈ cycles ↔ simple_cycle triangle 3 c.
Proof. exact (find_all_cycles_complete triangle 3 wf_triangle). Defined.

Lemma find_all_cycles_rotations_witness :
  ([1; 2] ++ [0; 1])%Z ∈ triangle_cycles.
Proof.
  apply (find_all_cycles_rotations triangle 3 triangle_cycles 0%Z 1%Z [2%Z]).
  - apply wf_triangle.
  - vm_compute. reflexivity.
  - apply list_elem_of_here.
Defined.

Lemma find_all_cycles_small_bound_witness : find_all_cycles triangle 1 = Some [].
Proof. apply (find_all_cycles_small_bound triangle 1). lia. Defined.

Lemma cycle_overlap_sym_witness :
  cycle_overlap triangle_cycles [[1; 2; 0; 1]; [0; 1; 0]]%Z
  = cycle_overlap [[1; 2; 0; 1]; [0; 1; 0]]%Z triangle_cycles.
Proof.
  apply (cycle_overlap_sym triangle_cycles [[1; 2; 0; 1]; [0; 1; 0]]%Z).
  - apply (bool_decide_unpack (NoDup triangle_cycles)). vm_compute. exact I.
  - apply (bool_decide_unpack (NoDup [[1; 2; 0; 1]; [0; 1; 0]]%Z)). vm_compute. exact I.
Defined.

Lemma cycle_overlap_larger_bound_witness :
  cycle_overlap triangle_cycles triangle_cycles = Z.of_nat (length triangle_cycles).
Proof.
  apply (cycle_overlap_larger_bound triangle 3 5 triangle_cycles triangle_cycles).
  - apply wf_triangle.
  - lia.
  - vm_compute. reflexivity.
  - vm_compute. reflexivity.
Defined.

Lemma simple_random_clustering_total_witness :
  ∃ cl r', simple_random_clustering triangle 3 [4; 5; 6] = Ok (cl, r') ∧
    (∀ n, is_Some (cl !! n) ↔ n ∈ nodes triangle) ∧
    (∀ n c, cl !! n = Some c → (0 ≤ c < 3)%Z).
Proof. apply (simple_random_clustering_total triangle 3 [4; 5; 6]). lia. Defined.

Lemma simple_random_clustering_no_cluster_witness :
  simple_random_clustering triangle 0 [4; 5; 6] = Raise IndexError ∧
  simple_random_clustering (@empty_graph Z) 0 [4; 5; 6] = Ok (∅, [4; 5; 6]).
Proof.
  split.
  - apply (simple_random_clustering_no_cluster triangle 0 [4; 5; 6]); [lia|done].
  - apply (simple_random_clustering_no_cluster (@empty_graph Z) 0 [4; 5; 6]); [lia|done].
Defined.

Lemma collapse_graph_single_cluster_witness :
  ∃ Hg, collapse_graph triangle one_cluster = Ok Hg ∧
        edges (wg_graph Hg) = [] ∧ wg_weight Hg = ∅ ∧ total_weight Hg = 0%Z.
Proof.
  apply (collapse_graph_single_cluster triangle one_cluster "A").
  - apply wf_triangle.
  - apply one_cluster_all.
Defined.

Lemma collapse_graph_injective_witness :
  ∃ Hg, collapse_graph triangle own_clusters = Ok Hg ∧
    (∀ a b w, wg_weight Hg !! (a, b) = Some w → w = 1%Z) ∧
    (∀ u v a b, u ∈ nodes triangle → v ∈ nodes triangle →
                own_clusters !! u = Some a → own_clusters !! v = Some b →
                (a, b) ∈ edges (wg_graph Hg) ↔ (u, v) ∈ edges triangle ∧ u ≠ v).
Proof.
  apply (collapse_graph_injective triangle own_clusters).
  - apply wf_triangle.
  - apply own_clusters_total.
  - apply own_clusters_apart.
Defined.

Lemma collapse_random_clustering_witness :
  ∃ cl r' Hg,
    simple_random_clustering triangle 2 [1; 0; 1] = Ok (cl, r') ∧
    collapse_graph triangle cl = Ok Hg ∧
    wf_graph (wg_graph Hg) ∧ loop_free (wg_graph Hg) ∧
    (∀ c, c ∈ nodes (wg_graph Hg) → (0 ≤ c < 2)%Z) ∧
    (Z.of_nat (length (nodes (wg_graph Hg))) ≤ 2)%Z ∧
    (0 ≤ total_weight Hg ≤ Z.of_nat (length (edges triangle)))%Z.
Proof.
  apply (collapse_random_clustering triangle 2 [1; 0; 1]).
  - apply wf_triangle.
  - lia.
Defined.

Lemma build_toy_brain_shape_witness :
  nodes two_embedded_cycles = range 6 ∧
  (Z.of_nat (length (edges two_embedded_cycles)) ≤ 6 * Z.max 0 2)%Z ∧
  ((0 < 2)%Z → 3 ≤ length (edges two_embedded_cycles)).
Proof.
  apply (build_toy_brain_shape 6 2 [1; 2; 3; 4; 5; 6; 7; 8; 9] []).
  vm_compute. reflexivity.
Defined.

Lemma generated_cycle_found_witness :
  ∃ cycles c, find_all_cycles two_embedded_cycles 6 = Some cycles ∧ c ∈ cycles ∧
              (3 ≤ edge_count c ≤ 6)%Z.
Proof.
  apply (generated_cycle_found 6 2 6 [1; 2; 3; 4; 5; 6; 7; 8; 9] []).
  - vm_compute. reflexivity.
  - lia.
  - lia.
Defined.

Lemma pcn_analysis_exact_witness :
  ∃ m, pcn_analysis chain4 = Some m ∧
       (∀ p, is_Some (m !! p) ↔ short_walk chain4 p) ∧
       (∀ p c, m !! p = Some c → c = 1%Z).
Proof. exact (pcn_analysis_exact chain4 wf_chain4). Defined.

Lemma find_all_cycles_at_most_nodes_witness :
  (edge_count [0; 1; 2; 0]%Z ≤ Z.of_nat (length (nodes triangle)))%Z.
Proof.
  apply (find_all_cycles_at_most_nodes triangle 5 triangle_cycles).
  - apply wf_triangle.
  - vm_compute. reflexivity.
  - apply list_elem_of_here.
Defined.
